(** * iris/backend.py: the BulkUpdater write buffer

    A shallow embedding of [BulkUpdater] (src/iris/backend.py, lines
    38-132) and the properties of its buffering, reconciliation and
    flushing.

    Python objects are referred to by address: the two pending lists hold
    addresses and a heap gives the current contents of every document, so
    that a document sitting in a list, in the lookup table and in the
    caller's hands is one object, and [document['_id'] = _id] is seen
    through every reference.  The collection handle is an interface
    ([Collection]); every call made on it is recorded in [calls].  The
    reentrant lock only matters between threads and is not modelled: the
    embedding is the sequential behaviour of one thread. *)

From stdpp Require Import base decidable option list functions gmap strings.
From Stdlib Require Import ZArith Lia.

Local Open Scope string_scope.
Local Open Scope Z_scope.
Local Open Scope list_scope.

(** ** Data *)

(** Field values: the hashable Python values a document field used as a
    uniqueness key or an identity can hold. *)
Inductive value : Type :=
  | VNone
  | VInt (z : Z)
  | VStr (s : string).

#[global] Instance value_eq_dec : EqDecision value.
Proof. solve_decision. Defined.

(** The exceptions the buffer raises itself, and the ones a collection
    call raises. *)
Inductive exn : Type :=
  | KeyError
  | ValueError
  | StoreError (code : nat).

#[global] Instance exn_eq_dec : EqDecision exn.
Proof. solve_decision. Defined.

(** A document is a dict (field name to value); it may also carry a
    [_unique_attr] attribute, whose value is [None] or a field name.
    [doc_attr = None] is the plain dict without the attribute. *)
Record document : Type := Document {
  doc_fields : gmap string value;
  doc_attr : option (option string);
}.

(** Object identity, and the heap: what each object currently holds. *)
Abbreviation addr := nat (only parsing).
Abbreviation heap := (nat → document) (only parsing).

(** [document['_id'] = _id] *)
Definition set_id (d : document) (_id : value) : document :=
  {| doc_fields := <["_id" := _id]> (doc_fields d); doc_attr := doc_attr d |}.

(** ['_id' in document] *)
Definition has_id (d : document) : bool :=
  bool_decide (is_Some (doc_fields d !! "_id")).

(** [getattr(document, '_unique_attr', self.unique_attr)] *)
Definition getattr_unique_attr (d : document) (dflt : option string)
  : option string :=
  match doc_attr d with
  | Some u => u
  | None => dflt
  end.

(** Truth value of [unique] in [if unique:]: [None] and the empty string
    are false. *)
Definition truthy (unique : option string) : bool :=
  match unique with
  | Some u => bool_decide (u ≠ EmptyString)
  | None => false
  end.

(** [x == y] on documents, as [list.remove] applies it: the same object,
    or dicts with the same items. *)
Definition doc_eqb (h : heap) (x y : addr) : bool :=
  bool_decide (x = y) || bool_decide (doc_fields (h x) = doc_fields (h y)).

(** ** Python dicts that are iterated: entries in insertion order *)

Section alist.
Context {K V : Type} `{EqDecision K}.

(** [d.get(k)] *)
Fixpoint alist_get (k : K) (l : list (K * V)) : option V :=
  match l with
  | [] => None
  | (k', v) :: r => if decide (k = k') then Some v else alist_get k r
  end.

(** [d[k] = v]: an existing key keeps its place. *)
Fixpoint alist_set (k : K) (v : V) (l : list (K * V)) : list (K * V) :=
  match l with
  | [] => [(k, v)]
  | (k', v') :: r =>
      if decide (k = k') then (k, v) :: r else (k', v') :: alist_set k v r
  end.

(** [dict(pairs)] *)
Definition alist_of_pairs (ps : list (K * V)) : list (K * V) :=
  foldl (λ d p, alist_set p.1 p.2 d) [] ps.
End alist.

(** Python 2 leaves the order in which a dict is iterated unspecified.
    It is a parameter here: any function that permutes the entries. *)
Class DictOrder : Type := {
  iter_order : ∀ {A : Type}, list A → list A;
  iter_order_perm : ∀ (A : Type) (l : list A), iter_order l ≡ₚ l;
}.

(** ** The collection handle *)

(** The three calls the buffer makes on [self.collection].  [C] is the
    state of the store behind the handle; each call answers or raises,
    and leaves a new store state.  [coll_find c field vals keys] is
    [find({field: {'$in': vals}}, keys)]; documents are passed by their
    contents: the handle is taken to leave the caller's objects alone. *)
Class Collection (C : Type) : Type := {
  coll_find : C → string → list value → list string
              → (exn + list (gmap string value)) * C;
  coll_insert : C → list (gmap string value) → (exn + unit) * C;
  coll_save : C → gmap string value → (exn + unit) * C;
}.

(** A call as it reaches the handle.  Documents are recorded with their
    address and their contents at the time of the call. *)
Inductive call : Type :=
  | CFind (field : string) (vals : list value) (keys : list string)
  | CInsert (docs : list (addr * gmap string value))
  | CSave (doc : addr * gmap string value).

Module BulkUpdater.
Section BulkUpdater.
Context {C : Type} `{!Collection C} `{!DictOrder}.

(** The fields of [self] set by [__init__], then the world around it:
    the heap of documents, the store and the calls made so far. *)
Record state : Type := State {
  unique_attr : option string;
  threshold : Z;
  total : Z;
  updates : list addr;     (* self.documents['updates'] *)
  inserts : list addr;     (* self.documents['inserts'] *)
  _inserts : Z;
  _updates : Z;
  heap_of : heap;
  collection : C;
  calls : list call;
}.

(** [BulkUpdater(collection, threshold, unique_attr)] *)
Definition init (c : C) (thr : Z) (ua : option string) (h : heap) : state :=
  {| unique_attr := ua; threshold := thr; total := 0;
     updates := []; inserts := []; _inserts := 0; _updates := 0;
     heap_of := h; collection := c; calls := [] |}.

Definition with_total (n : Z) (s : state) : state :=
  {| unique_attr := unique_attr s; threshold := threshold s; total := n;
     updates := updates s; inserts := inserts s;
     _inserts := _inserts s; _updates := _updates s;
     heap_of := heap_of s; collection := collection s; calls := calls s |}.

Definition with_updates (l : list addr) (s : state) : state :=
  {| unique_attr := unique_attr s; threshold := threshold s;
     total := total s; updates := l; inserts := inserts s;
     _inserts := _inserts s; _updates := _updates s;
     heap_of := heap_of s; collection := collection s; calls := calls s |}.

Definition with_inserts (l : list addr) (s : state) : state :=
  {| unique_attr := unique_attr s; threshold := threshold s;
     total := total s; updates := updates s; inserts := l;
     _inserts := _inserts s; _updates := _updates s;
     heap_of := heap_of s; collection := collection s; calls := calls s |}.

Definition with_counts (i u : Z) (s : state) : state :=
  {| unique_attr := unique_attr s; threshold := threshold s;
     total := total s; updates := updates s; inserts := inserts s;
     _inserts := i; _updates := u;
     heap_of := heap_of s; collection := collection s; calls := calls s |}.

Definition with_heap (h : heap) (s : state) : state :=
  {| unique_attr := unique_attr s; threshold := threshold s;
     total := total s; updates := updates s; inserts := inserts s;
     _inserts := _inserts s; _updates := _updates s;
     heap_of := h; collection := collection s; calls := calls s |}.

(** The store after a call, with the call recorded. *)
Definition called (k : call) (c : C) (s : state) : state :=
  {| unique_attr := unique_attr s; threshold := threshold s;
     total := total s; updates := updates s; inserts := inserts s;
     _inserts := _inserts s; _updates := _updates s;
     heap_of := heap_of s; collection := c; calls := calls s ++ [k] |}.

(** *** Statements that return or raise *)

Inductive outcome (A : Type) : Type :=
  | Ok (a : A) (s : state)
  | Raise (e : exn) (s : state).
Arguments Ok {A} a s.
Arguments Raise {A} e s.

Definition M (A : Type) : Type := state → outcome A.

Definition ret {A} (a : A) : M A := λ s, Ok a s.
Definition raise {A} (e : exn) : M A := λ s, Raise e s.
Definition bind {A B} (m : M A) (f : A → M B) : M B :=
  λ s, match m s with
       | Ok a s' => f a s'
       | Raise e s' => Raise e s'
       end.

(** The state an outcome leaves behind. *)
Definition final {A} (o : outcome A) : state :=
  match o with Ok _ s => s | Raise _ s => s end.

Notation "x <- m ;; k" := (bind m (λ x, k))
  (at level 100, m at next level, right associativity, only parsing).
Notation "m ;; k" := (bind m (λ _, k))
  (at level 100, right associativity, only parsing).

(** [for x in l: body(x)] *)
Fixpoint for_each {A} (l : list A) (body : A → M unit) : M unit :=
  match l with
  | [] => ret tt
  | x :: r => body x ;; for_each r body
  end.

(** [l.remove(x)]: drops the first item equal to [x]; [None] is the
    [ValueError] of a list with no such item. *)
Fixpoint list_remove (h : heap) (x : addr) (l : list addr)
  : option (list addr) :=
  match l with
  | [] => None
  | y :: r =>
      if doc_eqb h y x then Some r
      else match list_remove h x r with
           | Some r' => Some (y :: r')
           | None => None
           end
  end.

(** *** _clear (lines 124-132) *)
Definition _clear : M unit := λ s,
  Ok tt
    (with_total 0
      (with_inserts []
        (with_updates []
          (with_counts (_inserts s + Z.of_nat (length (inserts s)))
                       (_updates s + Z.of_nat (length (updates s))) s)))).

(** *** _flush (lines 84-122) *)

(** Lines 92-98: the lookup table, unique-attribute name to (value to
    document). *)
Definition lookups_t : Type := list (string * list (value * addr)).

Definition add_lookup (h : heap) (dflt : option string) (a : addr)
    (lookups : lookups_t) : exn + lookups_t :=
  let unique := getattr_unique_attr (h a) dflt in
  if truthy unique then
    match unique with
    | Some u =>
        match doc_fields (h a) !! u with
        | Some v =>
            let values := default [] (alist_get u lookups) in
            inr (alist_set u (alist_set v a values) lookups)
        | None => inl KeyError
        end
    | None => inr lookups
    end
  else inr lookups.

Fixpoint collect_lookups (h : heap) (dflt : option string)
    (ins : list addr) (lookups : lookups_t) : exn + lookups_t :=
  match ins with
  | [] => inr lookups
  | a :: r =>
      match add_lookup h dflt a lookups with
      | inr lookups' => collect_lookups h dflt r lookups'
      | inl e => inl e
      end
  end.

(** Lines 100-106: one query per name in the table. *)
Definition results_t : Type := list (string * list (value * value)).

(** [[(d[lookup], d['_id']) for d in found]] *)
Fixpoint found_pairs (lookup : string) (found : list (gmap string value))
  : option (list (value * value)) :=
  match found with
  | [] => Some []
  | d :: r =>
      match d !! lookup, d !! "_id" with
      | Some v, Some i =>
          match found_pairs lookup r with
          | Some ps => Some ((v, i) :: ps)
          | None => None
          end
      | _, _ => None
      end
  end.

Definition find_keys (lookup : string) : list string :=
  if decide (lookup = "_id") then [lookup] else [lookup; "_id"].

Definition search_one (results : results_t)
    (entry : string * list (value * addr)) : M results_t := λ s,
  let '(lookup, values) := entry in
  let keys := find_keys lookup in
  let vals := (iter_order values).*1 in
  let '(r, c) := coll_find (collection s) lookup vals keys in
  let s' := called (CFind lookup vals keys) c s in
  match r with
  | inl e => Raise e s'
  | inr found =>
      match found_pairs lookup found with
      | Some ps => Ok (alist_set lookup (alist_of_pairs ps) results) s'
      | None => Raise KeyError s'
      end
  end.

Fixpoint search_loop (entries : lookups_t) (results : results_t)
  : M results_t :=
  match entries with
  | [] => ret results
  | e :: r => results' <- search_one results e ;; search_loop r results'
  end.

Definition search_duplicates (lookups : lookups_t) : M results_t :=
  search_loop (iter_order lookups) [].

(** Lines 109-117: each match leaves [inserts], gets the identity found
    and joins [updates]. *)
Definition move_document (a : addr) (_id : value) : M unit := λ s,
  match list_remove (heap_of s) a (inserts s) with
  | None => Raise ValueError s
  | Some ins =>
      Ok tt
        (with_updates (updates s ++ [a])
          (with_heap (<[a := set_id (heap_of s a) _id]> (heap_of s))
            (with_inserts ins s)))
  end.

(** [lookups[key][unique]] *)
Definition lookups_get (lookups : lookups_t) (key : string)
    (unique : value) : option addr :=
  alist_get key lookups ≫= alist_get unique.

Definition move_one (lookups : lookups_t) (key : string)
    (match_ : value * value) : M unit :=
  match lookups_get lookups key match_.1 with
  | None => raise KeyError
  | Some a => move_document a match_.2
  end.

Definition move_matches (lookups : lookups_t) (results : results_t)
  : M unit :=
  for_each (iter_order results) (λ entry,
    for_each (iter_order entry.2) (move_one lookups entry.1)).

(** Lines 118-121: one bulk insert, then one save per update. *)
Definition snapshot (h : heap) (l : list addr)
  : list (addr * gmap string value) :=
  (λ a, (a, doc_fields (h a))) <$> l.

Definition insert_all : M unit := λ s,
  match inserts s with
  | [] => Ok tt s
  | _ :: _ =>
      let docs := snapshot (heap_of s) (inserts s) in
      let '(r, c) := coll_insert (collection s) docs.*2 in
      let s' := called (CInsert docs) c s in
      match r with
      | inl e => Raise e s'
      | inr _ => Ok tt s'
      end
  end.

Definition save_one (a : addr) : M unit := λ s,
  let d := doc_fields (heap_of s a) in
  let '(r, c) := coll_save (collection s) d in
  let s' := called (CSave (a, d)) c s in
  match r with
  | inl e => Raise e s'
  | inr _ => Ok tt s'
  end.

Definition write_documents : M unit :=
  insert_all ;; (λ s, for_each (updates s) save_one s).

(** Lines 90-117: everything [_flush] does before it writes. *)
Definition reconcile : M unit := λ s,
  match collect_lookups (heap_of s) (unique_attr s) (inserts s) [] with
  | inl e => Raise e s
  | inr lookups =>
      (results <- search_duplicates lookups ;;
       move_matches lookups results) s
  end.

Definition _flush : M unit :=
  reconcile ;; write_documents ;; _clear.

(** *** flush (lines 73-82) *)
Definition flush (force : bool) : M unit := λ s,
  if (total s <? threshold s) && negb force then Ok tt s
  else _flush s.

(** *** update (lines 56-71) *)

(** Lines 64-68: the document joins one of the two lists and is
    counted. *)
Definition append_document (a : addr) (s : state) : state :=
  let s' :=
    if has_id (heap_of s a) then with_updates (updates s ++ [a]) s
    else with_inserts (inserts s ++ [a]) s in
  with_total (total s + 1) s'.

Definition update_one (a : addr) : M unit := λ s,
  let s' := append_document a s in
  if total s' >=? threshold s' then flush false s' else Ok tt s'.

Definition update (documents : list addr) : M unit :=
  for_each documents update_one.

End BulkUpdater.

Arguments state C : clear implicits.
Arguments outcome C A : clear implicits.
Arguments M C A : clear implicits.
Arguments Ok {C A} a s.
Arguments Raise {C A} e s.

End BulkUpdater.

(** ** A store to run the buffer against

    An in-memory collection, which can be made unreachable, and the
    insertion order for dicts, to evaluate the embedding on concrete
    inputs. *)
Module MemStore.

Record store : Type := Store {
  docs : list (gmap string value);
  next_id : Z;
  up : bool;
}.

(** Documents whose [field] is one of [vals], cut down to [keys]. *)
Definition find (c : store) (field : string) (vals : list value)
    (keys : list string) : (exn + list (gmap string value)) * store :=
  let hit (d : gmap string value) :=
    match d !! field with
    | Some v => bool_decide (v ∈ vals)
    | None => false
    end in
  let cut (d : gmap string value) : gmap string value :=
    filter (λ kv, kv.1 ∈ keys) d in
  if up c then (inr (cut <$> filter (λ d, hit d = true) (docs c)), c)
  else (inl (StoreError 0), c).

(** A document without identity is given the next one. *)
Definition stamp (d : gmap string value) (n : Z) : gmap string value * Z :=
  match d !! "_id" with
  | Some _ => (d, n)
  | None => (<["_id" := VInt n]> d, n + 1)
  end.

Definition add (c : store) (d : gmap string value) : store :=
  let '(d', n) := stamp d (next_id c) in
  {| docs := docs c ++ [d']; next_id := n; up := up c |}.

Definition insert (c : store) (ds : list (gmap string value))
  : (exn + unit) * store :=
  if up c then (inr tt, foldl add c ds) else (inl (StoreError 0), c).

(** Replace the document with the same identity, or add it. *)
Definition save (c : store) (d : gmap string value)
  : (exn + unit) * store :=
  if up c then
    match d !! "_id" with
    | Some i =>
        if bool_decide (Exists (λ d', d' !! "_id" = Some i) (docs c)) then
          (inr tt,
           {| docs := (λ d', if bool_decide (d' !! "_id" = Some i)
                             then d else d') <$> docs c;
              next_id := next_id c; up := up c |})
        else (inr tt, add c d)
    | None => (inr tt, add c d)
    end
  else (inl (StoreError 0), c).

#[global] Instance mem_collection : Collection store :=
  {| coll_find := find; coll_insert := insert; coll_save := save |}.

#[global] Instance insertion_order : DictOrder :=
  {| iter_order := λ A l, l;
     iter_order_perm := λ A l, reflexivity l |}.

End MemStore.

(** ** Vocabulary of the properties *)

Import BulkUpdater.

(** What happens to a buffer between two observations: a call of one of
    its two public methods, or the caller changing a document it still
    holds. *)
Inductive op : Type :=
  | Update (documents : list addr)
  | Flush (force : bool)
  | Mutate (a : addr) (d : document).

Section vocabulary.
Context {C : Type} `{!Collection C} `{!DictOrder}.
Implicit Types (s : state C).

(** Everything but the store and the record of calls. *)
Definition same_buffer s s' : Prop :=
  unique_attr s' = unique_attr s ∧ threshold s' = threshold s ∧
  total s' = total s ∧ updates s' = updates s ∧ inserts s' = inserts s ∧
  _inserts s' = _inserts s ∧ _updates s' = _updates s ∧
  heap_of s' = heap_of s.

(** Everything but the two pending lists and the documents. *)
Definition same_settings s s' : Prop :=
  unique_attr s' = unique_attr s ∧ threshold s' = threshold s ∧
  total s' = total s ∧ _inserts s' = _inserts s ∧
  _updates s' = _updates s ∧ collection s' = collection s ∧
  calls s' = calls s.

Definition is_find (k : call) : bool :=
  match k with CFind _ _ _ => true | _ => false end.

Definition is_write (k : call) : bool :=
  match k with CFind _ _ _ => false | _ => true end.

Definition find_field (k : call) : option string :=
  match k with CFind f _ _ => Some f | _ => None end.

(** A bulk insert among the calls was given the document. *)
Definition bulk_inserted (a : addr) (l : list call) : Prop :=
  ∃ docs, CInsert docs ∈ l ∧ a ∈ docs.*1.

(** The calls made between two states. *)
Definition calls_since s s' : list call :=
  drop (length (calls s)) (calls s').

(** The queries of a search: one per entry, in order, up to the entry
    at which it raised. *)
Definition searched (entries : lookups_t) (o : outcome C results_t)
    (finds : list call) : Prop :=
  match o with
  | Ok _ _ => find_field <$> finds = Some <$> entries.*1
  | Raise _ _ =>
      ∃ asked, asked `prefix_of` entries.*1 ∧
               find_field <$> finds = Some <$> asked
  end.

(** The moves keep the number of pending documents. *)
Definition same_pending s s' : Prop :=
  same_settings s s' ∧
  (length (updates s') + length (inserts s') =
   length (updates s) + length (inserts s))%nat.

(** The bulk insert, made when there is anything to insert. *)
Definition insert_call s : list call :=
  match inserts s with
  | [] => []
  | _ :: _ => [CInsert (snapshot (heap_of s) (inserts s))]
  end.

(** The calls of a completed write: the bulk insert, then a save per
    update, in order. *)
Definition writes_of s : list call :=
  insert_call s ++ (CSave <$> snapshot (heap_of s) (updates s)).

(** The pending count, the settings and the counters as they stand:
    what the reconciliation and the writes keep, however they end. *)
Definition still_pending s s' : Prop :=
  unique_attr s' = unique_attr s ∧ threshold s' = threshold s ∧
  total s' = total s ∧ _inserts s' = _inserts s ∧
  _updates s' = _updates s ∧
  (length (updates s') + length (inserts s') =
   length (updates s) + length (inserts s))%nat.

Definition run (o : op) : M C unit :=
  match o with
  | Update documents => update documents
  | Flush force => flush force
  | Mutate a d => λ s, Ok tt (with_heap (<[a := d]> (heap_of s)) s)
  end.

(** The state after a sequence of operations, whether they returned
    or raised. *)
Definition run_all (ops : list op) s : state C :=
  foldl (λ s o, final (run o s)) s ops.

(** [total == len(updates) + len(inserts)] *)
Definition pending_inv s : Prop :=
  total s = Z.of_nat (length (updates s) + length (inserts s)).

(** How the observable state moves: the settings stay, the invariant
    is kept, the counters do not go down, calls are only added, and a
    counter that went up did so with a write of its kind. *)
Definition advance s s' : Prop :=
  threshold s' = threshold s ∧ unique_attr s' = unique_attr s ∧
  (pending_inv s → pending_inv s') ∧
  _inserts s ≤ _inserts s' ∧ _updates s ≤ _updates s' ∧
  ∃ new, calls s' = calls s ++ new ∧
         (_inserts s < _inserts s' → ∃ docs, CInsert docs ∈ new) ∧
         (_updates s < _updates s' → ∃ d, CSave d ∈ new).

(** Documents added by one [update] call each. *)
Definition one_at_a_time (docs : list addr) : M C unit :=
  for_each docs (λ a, update [a]).

(** The name a pending insert is looked up by, if any. *)
Definition effective_name (h : heap) (dflt : option string) (a : addr)
  : option string :=
  let unique := getattr_unique_attr (h a) dflt in
  if truthy unique then unique else None.

(** The name and value a pending insert is filed under. *)
Definition key_of (h : heap) (dflt : option string) (a : addr)
  : option (string * value) :=
  u ← effective_name h dflt a; v ← doc_fields (h a) !! u; Some (u, v).

(** The names the pending inserts are looked up by, one per document
    that has one, and the distinct ones among them. *)
Definition lookup_names s : list string :=
  omap (effective_name (heap_of s) (unique_attr s)) (inserts s).

Definition distinct_names s : list string := remove_dups (lookup_names s).

(** No name twice, and no value twice under a name. *)
Definition results_wf (results : results_t) : Prop :=
  NoDup results.*1 ∧ Forall (λ e, NoDup e.2.*1) results.

(** [results[key][unique]]: the identity found under a name for a
    value. *)
Definition results_get (results : results_t) (key : string)
    (unique : value) : option value :=
  alist_get key results ≫= alist_get unique.

(** The matches in the order the two nested loops visit them. *)
Definition moves (results : results_t) : list (string * (value * value)) :=
  e ← iter_order results; (λ m, (e.1, m)) <$> iter_order e.2.

Definition move_key (km : string * (value * value)) : string * value :=
  (km.1, km.2.1).

(** The documents the moves name in the lookup table. *)
Definition targets (lookups : lookups_t)
    (ms : list (string * (value * value))) : list addr :=
  omap (λ km, lookups_get lookups km.1 km.2.1) ms.

(** The contents of the documents in a list. *)
Definition contents (h : heap) (l : list addr) : list (gmap string value) :=
  (λ a, doc_fields (h a)) <$> l.

(** The documents the buffer has taken so far: those written, by the two
    counters, and those still pending. *)
Definition accounted s : Z :=
  _inserts s + _updates s +
  Z.of_nat (length (updates s) + length (inserts s)).

Definition is_save (k : call) : bool :=
  match k with CSave _ => true | _ => false end.

(** A save among the calls was given the document. *)
Definition saved (a : addr) (l : list call) : Prop :=
  ∃ d, CSave (a, d) ∈ l.

(** The query made for one entry of the lookup table (lines 102-106). *)
Definition query_of (entry : string * list (value * addr)) : call :=
  CFind entry.1 (iter_order entry.2).*1 (find_keys entry.1).

(** Every pending update has an ['_id']. *)
Definition updates_identified s : Prop :=
  ∀ a, a ∈ updates s → is_Some (doc_fields (heap_of s a) !! "_id").

End vocabulary.

(** ** Concrete buffers

    The inputs at which the properties below are evaluated.  Each
    buffer is built the way a caller builds it: a new [BulkUpdater]
    over a store that already holds [{'email': 'a', '_id': 1}], then
    one [update] call. *)
Module Examples.
Import MemStore.

Definition remote : store :=
  {| docs := [ {["email" := VStr "a"; "_id" := VInt 1]} ];
     next_id := 2; up := true |}.

Definition remote_down : store :=
  {| docs := docs remote; next_id := next_id remote; up := false |}.

(** Two new documents with the same e-mail and different names, and a
    third without e-mail. *)
Definition doc_A : document :=
  {| doc_fields := {["email" := VStr "a"; "name" := VStr "A"]};
     doc_attr := None |}.
Definition doc_B : document :=
  {| doc_fields := {["email" := VStr "a"; "name" := VStr "B"]};
     doc_attr := None |}.
Definition doc_C : document :=
  {| doc_fields := {["name" := VStr "C"]}; doc_attr := None |}.

Definition people : heap :=
  λ a, match a with O => doc_A | 1%nat => doc_B | _ => doc_C end.

(** [u = BulkUpdater(photos, 100, 'email'); u.update(A, B)] *)
Definition shared_value : state store :=
  final (update [0%nat; 1%nat] (init remote 100 (Some "email") people)).

(** The same with the store unreachable. *)
Definition shared_value_down : state store :=
  final (update [0%nat; 1%nat]
           (init remote_down 100 (Some "email") people)).

(** [u.update(A, B, C)]: [C] has no ['email']. *)
Definition missing_field : state store :=
  final (update [0%nat; 1%nat; 2%nat]
           (init remote 100 (Some "email") people)).

(** [u = BulkUpdater(photos, 2, 'email')] *)
Definition fresh : state store := init remote 2 (Some "email") people.

(** Two distinct dicts with the same items. *)
Definition twins : heap :=
  λ _, {| doc_fields := {["email" := VStr "a"]}; doc_attr := None |}.

Definition equal_twins : state store :=
  final (update [0%nat; 1%nat] (init remote 100 (Some "email") twins)).

(** A plain dict, then a dict with the same items whose
    [_unique_attr] is ['email'], in a buffer without default name. *)
Definition plain_and_keyed : heap :=
  λ a, match a with
       | O => {| doc_fields := {["email" := VStr "a"]}; doc_attr := None |}
       | _ => {| doc_fields := {["email" := VStr "a"]};
                 doc_attr := Some (Some "email") |}
       end.

Definition plain_twin : state store :=
  final (update [0%nat; 1%nat] (init remote 100 None plain_and_keyed)).

(** Documents looked up by e-mail (the default), by path (their own
    [_unique_attr]) and not at all ([_unique_attr = None]). *)
Definition mixed : heap :=
  λ a, match a with
       | O => doc_A
       | 1%nat => {| doc_fields := {["email" := VStr "b"]};
                     doc_attr := None |}
       | 2%nat => {| doc_fields := {["path" := VStr "/p"]};
                     doc_attr := Some (Some "path") |}
       | _ => {| doc_fields := {["name" := VStr "C"]};
                 doc_attr := Some None |}
       end.

Definition mixed_names : state store :=
  final (update [0%nat; 1%nat; 2%nat; 3%nat]
           (init remote 100 (Some "email") mixed)).

(** The lookup table and the answers of the search in
    [shared_value], and in [mixed_names]. *)
Definition email_lookups : lookups_t := [("email", [(VStr "a", 1%nat)])].
Definition email_results : results_t := [("email", [(VStr "a", VInt 1)])].

Definition mixed_lookups : lookups_t :=
  [("email", [(VStr "a", 0%nat); (VStr "b", 1%nat)]);
   ("path", [(VStr "/p", 2%nat)])].
Definition mixed_results : results_t :=
  [("email", [(VStr "a", VInt 1)]); ("path", [])].

End Examples.

(** A store that answers queries and refuses every write. *)
Module ReadOnlyStore.

Record store : Type := Store { behind : MemStore.store }.

#[global] Instance readonly_collection : Collection store :=
  {| coll_find := λ c field vals keys,
       let '(r, c') := MemStore.find (behind c) field vals keys in
       (r, {| behind := c' |});
     coll_insert := λ c _, (inl (StoreError 13), c);
     coll_save := λ c _, (inl (StoreError 13), c) |}.

End ReadOnlyStore.

(** More concrete buffers. *)
Module MoreExamples.
Import Examples.

(** A threshold of zero. *)
Definition eager : state MemStore.store :=
  init remote 0 (Some "email") people.


(** A store with two documents for one e-mail. *)
Definition remote_twice : MemStore.store :=
  {| MemStore.docs := [ {["email" := VStr "a"; "_id" := VInt 1]};
                        {["email" := VStr "a"; "_id" := VInt 5]} ];
     MemStore.next_id := 6; MemStore.up := true |}.

Definition asked_twice : state MemStore.store :=
  final (update [0%nat] (init remote_twice 100 (Some "email") people)).

(** A document with an identity and a new one. *)
Definition known_and_new : heap :=
  λ a, match a with
       | O => {| doc_fields := {["_id" := VInt 9; "name" := VStr "Z"]};
                 doc_attr := None |}
       | _ => doc_B
       end.

Definition update_and_insert : state MemStore.store :=
  final (update [0%nat; 1%nat]
           (init remote 100 (Some "email") known_and_new)).

End MoreExamples.

(** ** Photo (lines 157-171)

    A [Photo] is its attribute dict: [save] writes [self.__dict__], and
    [from_path] and [_init_from_dict] update it.  What [from_path] takes
    from outside the file is a parameter: [os.path.realpath], the
    metadata object read at a path (its [__dict__] and its [path]
    attribute, if it has one), [os.stat(...).st_size], the exception of
    a missing attribute and an int as an attribute value. *)
Module Photo.
Section Photo.
Context {V E : Type}.

Record metadata : Type := MetaData {
  md_dict : gmap string V;
  md_path : option V;
}.

Context (realpath : string → string)
        (read_metadata : string → E + metadata)
        (stat_size : V → E + Z)
        (AttributeError : E)
        (of_int : Z → V).

Definition copykeys : list string :=
  ["x"; "y"; "exif"; "iptc"; "tags"; "path"].

(** [from_path(self, path)]: the outcome and the attributes it leaves. *)
Definition from_path (self : gmap string V) (path : string)
  : (E + unit) * gmap string V :=
  let path := realpath path in
  match read_metadata path with
  | inl e => (inl e, self)
  | inr meta =>
      let d := filter (λ kv, kv.1 ∈ copykeys) (md_dict meta) in
      let self := d ∪ self in
      match md_path meta with
      | None => (inl AttributeError, self)
      | Some p =>
          match stat_size p with
          | inl e => (inl e, self)
          | inr size => (inr tt, <["size" := of_int size]> self)
          end
      end
  end.

(** [_init_from_dict(self, d)] *)
Definition _init_from_dict (self d : gmap string V) : gmap string V :=
  d ∪ self.

End Photo.

Arguments metadata V : clear implicits.

End Photo.

(** A photo store for concrete inputs: one file, of 1024 bytes. *)
Module PhotoExamples.

Inductive error : Type :=
  | AttributeError
  | OSError (errno : Z).

Definition on_disk : gmap string value :=
  {["path" := VStr "/photos/a.jpg"; "x" := VInt 640; "y" := VInt 480;
    "camera" := VStr "K1000"]}.

Definition read_metadata (path : string) : error + Photo.metadata value :=
  if bool_decide (path = "/photos/a.jpg") then
    inr {| Photo.md_dict := on_disk;
           Photo.md_path := Some (VStr "/photos/a.jpg") |}
  else inl (OSError 2).

Definition stat_size (p : value) : error + Z :=
  if bool_decide (p = VStr "/photos/a.jpg") then inr 1024
  else inl (OSError 2).

(** The file is gone between reading its metadata and [os.stat]. *)
Definition stat_gone (p : value) : error + Z := inl (OSError 2).

Definition loaded : gmap string value :=
  {["_id" := VInt 7; "x" := VInt 1; "title" := VStr "old"]}.

End PhotoExamples.

(** ** Properties *)

Section properties.
Context {C : Type} `{!Collection C} `{!DictOrder}.
Implicit Types (s : state C).

(** *** What each step leaves alone *)

Lemma same_buffer_refl s : same_buffer s s.
Proof. by repeat split. Qed.

Lemma same_buffer_trans s1 s2 s3 :
  same_buffer s1 s2 → same_buffer s2 s3 → same_buffer s1 s3.
Proof.
  unfold same_buffer. intros (?&?&?&?&?&?&?&?) (?&?&?&?&?&?&?&?).
  repeat split; congruence.
Qed.

Lemma same_settings_refl s : same_settings s s.
Proof. by repeat split. Qed.

Lemma same_settings_trans s1 s2 s3 :
  same_settings s1 s2 → same_settings s2 s3 → same_settings s1 s3.
Proof.
  unfold same_settings. intros (?&?&?&?&?&?&?) (?&?&?&?&?&?&?).
  repeat split; congruence.
Qed.

Lemma calls_since_app s s' l :
  calls s' = calls s ++ l → calls_since s s' = l.
Proof. unfold calls_since. intros ->. by rewrite drop_app_length. Qed.

(** *** The monad *)

Lemma bind_Ok {A B} (m : M C A) (f : A → M C B) s b s' :
  bind m f s = Ok b s' ↔ ∃ a s1, m s = Ok a s1 ∧ f a s1 = Ok b s'.
Proof.
  unfold bind. destruct (m s) as [a s1|e s1]; split.
  - eauto.
  - by intros (a' & s1' & [= -> ->] & ?).
  - done.
  - by intros (? & ? & ? & ?).
Qed.

Lemma bind_Raise {A B} (m : M C A) (f : A → M C B) s e s' :
  bind m f s = Raise e s' ↔
  m s = Raise e s' ∨ ∃ a s1, m s = Ok a s1 ∧ f a s1 = Raise e s'.
Proof.
  unfold bind. destruct (m s) as [a s1|e1 s1]; split.
  - eauto.
  - intros [?|(a' & s1' & [= -> ->] & ?)]; done.
  - intros [= -> ->]. by left.
  - intros [[= -> ->]|(? & ? & ? & ?)]; done.
Qed.

(** A loop whose body keeps a relation to the state it started in keeps
    it, however the loop ends. *)
Lemma for_each_final {A} (R : state C → state C → Prop)
    (l : list A) (body : A → M C unit) :
  (∀ s, R s s) → (∀ s1 s2 s3, R s1 s2 → R s2 s3 → R s1 s3) →
  (∀ x s, x ∈ l → R s (final (body x s))) →
  ∀ s, R s (final (for_each l body s)).
Proof.
  intros Hrefl Htrans. induction l as [|x l IH]; intros Hbody s; simpl.
  - apply Hrefl.
  - unfold bind. pose proof (Hbody x s (list_elem_of_here _ _)) as Hx.
    destruct (body x s) as [[] s1|e s1]; simpl in *; [|done].
    eapply Htrans; [exact Hx|]. apply IH.
    intros y s' Hy. apply Hbody. by right.
Qed.

(** *** The search for duplicates only queries *)

Lemma same_buffer_called k c s : same_buffer s (called k c s).
Proof. by repeat split. Qed.

Lemma search_one_calls results entry s :
  let o := search_one results entry s in
  same_buffer s (final o) ∧
  ∃ k, calls (final o) = calls s ++ [k] ∧ find_field k = Some entry.1.
Proof.
  destruct entry as [lookup values]. unfold search_one. simpl.
  destruct (coll_find _ _ _ _) as [[e|found] c]; simpl.
  - split; [apply same_buffer_called|]. by eexists.
  - destruct (found_pairs lookup found); simpl;
      (split; [apply same_buffer_called|]); by eexists.
Qed.

Lemma search_loop_calls entries : ∀ results s,
  let o := search_loop entries results s in
  same_buffer s (final o) ∧
  ∃ finds, calls (final o) = calls s ++ finds ∧ searched entries o finds.
Proof.
  induction entries as [|entry entries IH]; intros results s; simpl.
  - split; [apply same_buffer_refl|]. exists []. by rewrite app_nil_r.
  - unfold bind.
    destruct (search_one_calls results entry s) as (Hsame & k & Hk & Hf).
    destruct (search_one results entry s) as [results' s1|e s1];
      simpl in *.
    + destruct (IH results' s1) as (Hsame' & finds & Hcalls & Hs).
      split; [by eapply same_buffer_trans|].
      exists (k :: finds). split.
      { rewrite Hcalls, Hk. by rewrite <-app_assoc. }
      unfold searched in *.
      destruct (search_loop entries results' s1).
      * cbn. by rewrite Hf, Hs.
      * destruct Hs as (asked & Hpre & Hasked).
        exists (entry.1 :: asked). split.
        { by apply prefix_cons. }
        cbn. by rewrite Hf, Hasked.
    + split; [done|]. exists [k]. split; [done|].
      exists [entry.1]. split.
      { apply prefix_cons, prefix_nil. }
      cbn. by rewrite Hf.
Qed.

(** *** Moving matches only touches the lists and the documents *)

Lemma list_remove_length h x l l' :
  list_remove h x l = Some l' → length l = S (length l').
Proof.
  revert l'. induction l as [|y l IH]; intros l'; simpl; [done|].
  destruct (doc_eqb h y x); [by intros [= ->]|].
  destruct (list_remove h x l) as [r|]; [|done].
  intros [= <-]. simpl. f_equal. by apply IH.
Qed.

Lemma same_pending_refl s : same_pending s s.
Proof. split; [apply same_settings_refl|done]. Qed.

Lemma same_pending_trans s1 s2 s3 :
  same_pending s1 s2 → same_pending s2 s3 → same_pending s1 s3.
Proof.
  intros [? ?] [? ?]. split; [by eapply same_settings_trans|lia].
Qed.

Lemma move_document_pending a _id s :
  same_pending s (final (move_document a _id s)).
Proof.
  unfold move_document.
  destruct (list_remove _ _ _) as [ins|] eqn:Hrm; simpl.
  - split; [by repeat split|]. simpl.
    apply list_remove_length in Hrm. rewrite length_app. simpl. lia.
  - apply same_pending_refl.
Qed.

Lemma move_one_pending lookups key m s :
  same_pending s (final (move_one lookups key m s)).
Proof.
  unfold move_one. destruct (lookups_get _ _ _).
  - apply move_document_pending.
  - apply same_pending_refl.
Qed.

Lemma move_matches_pending lookups results s :
  same_pending s (final (move_matches lookups results s)).
Proof.
  unfold move_matches.
  apply (for_each_final same_pending);
    [apply same_pending_refl|apply same_pending_trans|].
  intros entry s1 _.
  apply (for_each_final same_pending);
    [apply same_pending_refl|apply same_pending_trans|].
  intros m s2 _. apply move_one_pending.
Qed.

(** *** Writing only calls the store *)

Lemma save_one_calls a s :
  let o := save_one a s in
  same_buffer s (final o) ∧
  calls (final o) = calls s ++ [CSave (a, doc_fields (heap_of s a))].
Proof.
  unfold save_one. destruct (coll_save _ _) as [[e|[]] c]; simpl;
    (split; [apply same_buffer_called|done]).
Qed.

Lemma save_loop_calls l : ∀ s,
  let o := for_each l save_one s in
  same_buffer s (final o) ∧
  ∃ ws, calls (final o) = calls s ++ ws ∧
        ws `prefix_of` (CSave <$> snapshot (heap_of s) l) ∧
        (∀ s', o = Ok tt s' → ws = CSave <$> snapshot (heap_of s) l).
Proof.
  induction l as [|a l IH]; intros s; simpl.
  - split; [apply same_buffer_refl|]. exists [].
    rewrite app_nil_r. by repeat split.
  - unfold bind. destruct (save_one_calls a s) as (Hsame & Hk).
    destruct (save_one a s) as [[] s1|e s1]; simpl in *.
    + destruct (IH s1) as (Hsame' & ws & Hcalls & Hpre & Hok).
      assert (heap_of s1 = heap_of s) as Hh by apply Hsame.
      rewrite Hh in Hpre, Hok.
      split; [by eapply same_buffer_trans|].
      exists (CSave (a, doc_fields (heap_of s a)) :: ws). split.
      { rewrite Hcalls, Hk. by rewrite <-app_assoc. }
      split; [by apply prefix_cons|].
      intros s' Hs'. f_equal. by eapply Hok.
    + split; [done|]. eexists. split; [done|]. split; [|done].
      apply prefix_cons, prefix_nil.
Qed.

Lemma insert_all_calls s :
  let o := insert_all s in
  same_buffer s (final o) ∧ calls (final o) = calls s ++ insert_call s.
Proof.
  unfold insert_all, insert_call.
  destruct (inserts s) as [|a l] eqn:Hins; simpl.
  - split; [apply same_buffer_refl|]. by rewrite app_nil_r.
  - destruct (coll_insert _ _) as [[e|[]] c]; simpl;
      (split; [apply same_buffer_called|done]).
Qed.

Lemma write_documents_calls s :
  let o := write_documents s in
  same_buffer s (final o) ∧
  ∃ saves, calls (final o) = calls s ++ insert_call s ++ saves ∧
           saves `prefix_of` (CSave <$> snapshot (heap_of s) (updates s)) ∧
           (∀ s', o = Ok tt s' →
                  saves = CSave <$> snapshot (heap_of s) (updates s)).
Proof.
  unfold write_documents, bind.
  destruct (insert_all_calls s) as (Hsame & Hk).
  destruct (insert_all s) as [[] s1|e s1]; simpl in *.
  - destruct (save_loop_calls (updates s1) s1)
      as (Hsame' & ws & Hcalls & Hpre & Hok).
    destruct Hsame as (?&?&?&Hu&?&?&?&Hh). rewrite Hu, Hh in *.
    split; [eapply same_buffer_trans; [|exact Hsame']; by repeat split|].
    exists ws. split; [by rewrite Hcalls, Hk, <-app_assoc|]. done.
  - split; [done|]. exists []. rewrite app_nil_r.
    split; [done|]. split; [apply prefix_nil|done].
Qed.

(** *** The phases of a flush *)

Lemma reconcile_Ok s s2 :
  reconcile s = Ok tt s2 ↔
  ∃ lookups results s1,
    collect_lookups (heap_of s) (unique_attr s) (inserts s) [] = inr lookups ∧
    search_duplicates lookups s = Ok results s1 ∧
    move_matches lookups results s1 = Ok tt s2.
Proof.
  unfold reconcile. destruct (collect_lookups _ _ _ _) as [e|lookups].
  - split; [done|]. by intros (? & ? & ? & ? & _).
  - rewrite bind_Ok. split.
    + intros (results & s1 & ? & ?). by exists lookups, results, s1.
    + intros (? & results & s1 & [= <-] & ? & ?). by exists results, s1.
Qed.

Lemma _flush_Ok s s' :
  _flush s = Ok tt s' ↔
  ∃ s1 s2, reconcile s = Ok tt s1 ∧ write_documents s1 = Ok tt s2 ∧
           _clear s2 = Ok tt s'.
Proof.
  unfold _flush. rewrite bind_Ok. split.
  - intros ([] & s1 & ? & Hrest). apply bind_Ok in Hrest.
    destruct Hrest as ([] & s2 & ? & ?). by exists s1, s2.
  - intros (s1 & s2 & ? & ? & ?). exists tt, s1. split; [done|].
    apply bind_Ok. by exists tt, s2.
Qed.

Lemma still_pending_refl s : still_pending s s.
Proof. by repeat split. Qed.

Lemma still_pending_trans s1 s2 s3 :
  still_pending s1 s2 → still_pending s2 s3 → still_pending s1 s3.
Proof.
  unfold still_pending. intros (?&?&?&?&?&?) (?&?&?&?&?&?).
  repeat split; try congruence; lia.
Qed.

Lemma same_buffer_still s s' : same_buffer s s' → still_pending s s'.
Proof.
  intros (?&?&?&Hu&Hi&?&?&?). repeat split; try done. by rewrite Hu, Hi.
Qed.

Lemma same_pending_still s s' : same_pending s s' → still_pending s s'.
Proof. intros [(?&?&?&?&?&?&?) ?]. by repeat split. Qed.

Lemma reconcile_still s : still_pending s (final (reconcile s)).
Proof.
  unfold reconcile. destruct (collect_lookups _ _ _ _) as [e|lookups];
    [apply still_pending_refl|].
  unfold bind, search_duplicates.
  destruct (search_loop_calls (iter_order lookups) [] s) as [Hsame _].
  destruct (search_loop _ _ s) as [results s1|e s1]; simpl in *.
  - eapply still_pending_trans; [by apply same_buffer_still|].
    apply same_pending_still, move_matches_pending.
  - by apply same_buffer_still.
Qed.

(** Reconciliation only queries: its calls are all finds. *)
Lemma reconcile_calls s :
  ∃ finds, calls (final (reconcile s)) = calls s ++ finds ∧
           Forall (λ k, is_find k = true) finds.
Proof.
  assert (∀ finds : list call, ∀ asked : list string,
    find_field <$> finds = Some <$> asked →
    Forall (λ k, is_find k = true) finds) as Hall.
  { induction finds as [|k finds IH]; intros [|f asked]; try done.
    intros [= Hk Hrest]. constructor; [by destruct k|by eapply IH]. }
  unfold reconcile. destruct (collect_lookups _ _ _ _) as [e|lookups].
  { exists []. by rewrite app_nil_r. }
  unfold bind, search_duplicates.
  destruct (search_loop_calls (iter_order lookups) [] s)
    as (_ & finds & Hcalls & Hs).
  destruct (search_loop _ _ s) as [results s1|e s1]; simpl in *.
  - exists finds. split; [|by eapply Hall].
    destruct (move_matches_pending lookups results s1)
      as [(_&_&_&_&_&_&Hc) _].
    by rewrite Hc.
  - destruct Hs as (asked & _ & Hasked). exists finds.
    split; [done|by eapply Hall].
Qed.

(** *** flush and update, one step at a time *)

Lemma flush_runs force s :
  force = true ∨ threshold s ≤ total s → flush force s = _flush s.
Proof.
  unfold flush. intros [->|Hge].
  - by rewrite andb_false_r.
  - by rewrite (proj2 (Z.ltb_ge _ _) Hge).
Qed.

Lemma flush_skips s :
  total s < threshold s → flush false s = Ok tt s.
Proof.
  unfold flush. intros Hlt. by rewrite (proj2 (Z.ltb_lt _ _) Hlt).
Qed.

Lemma update_one_unfold a s :
  update_one a s =
  if total s + 1 >=? threshold s then flush false (append_document a s)
  else Ok tt (append_document a s).
Proof. unfold update_one, append_document. by destruct (has_id _). Qed.

Lemma update_single a s : update [a] s = update_one a s.
Proof.
  unfold update. simpl. unfold bind.
  by destruct (update_one a s) as [[] ?|? ?].
Qed.

Lemma update_cons a docs s :
  update (a :: docs) s =
  match update_one a s with
  | Ok _ s1 => update docs s1
  | Raise e s1 => Raise e s1
  end.
Proof. done. Qed.

Lemma has_id_true d : has_id d = true ↔ is_Some (doc_fields d !! "_id").
Proof. unfold has_id. apply bool_decide_eq_true. Qed.

Lemma has_id_false d : has_id d = false ↔ doc_fields d !! "_id" = None.
Proof.
  unfold has_id. rewrite bool_decide_eq_false. symmetry.
  apply eq_None_not_Some.
Qed.

(** *** Errors of the lookup table *)

Lemma add_lookup_error h dflt a lookups e :
  add_lookup h dflt a lookups = inl e → e = KeyError.
Proof.
  unfold add_lookup. destruct (truthy _); [|done].
  destruct (getattr_unique_attr _ _) as [u|]; [|done].
  destruct (_ !! u); [done|]. by intros [= <-].
Qed.

Lemma collect_lookups_error h dflt ins : ∀ lookups e,
  collect_lookups h dflt ins lookups = inl e → e = KeyError.
Proof.
  induction ins as [|a ins IH]; intros lookups e; simpl; [done|].
  destruct (add_lookup h dflt a lookups) eqn:Hadd.
  - intros [= <-]. by eapply add_lookup_error.
  - apply IH.
Qed.

Lemma collect_lookups_missing h dflt ins a u : ∀ lookups,
  a ∈ ins → getattr_unique_attr (h a) dflt = Some u →
  u ≠ EmptyString → doc_fields (h a) !! u = None →
  collect_lookups h dflt ins lookups = inl KeyError.
Proof.
  intros lookups Hin Hattr Hu Hnone. revert lookups.
  induction ins as [|b ins IH]; intros lookups; simpl.
  { by apply elem_of_nil in Hin. }
  apply elem_of_cons in Hin as [<-|Hin].
  - unfold add_lookup. rewrite Hattr. simpl.
    rewrite bool_decide_eq_true_2 by done. by rewrite Hnone.
  - destruct (add_lookup h dflt b lookups) as [e|lookups'] eqn:Hadd.
    + f_equal. by eapply add_lookup_error.
    + by apply IH.
Qed.

(** *** Classification, the no-op flush and the failures of a flush *)

(** C3 (classification).  [update([D])] first appends [D] to
    [updates] when [D] has an ['_id'] field and to [inserts]
    otherwise, the other list staying as it was, and adds one to
    [total]; it then checks the threshold on that state.  Below the
    threshold this is the state in which [update] returns. *)
Theorem update_classifies s a :
  let s' := append_document a s in
  (is_Some (doc_fields (heap_of s a) !! "_id") →
     updates s' = updates s ++ [a] ∧ inserts s' = inserts s) ∧
  (doc_fields (heap_of s a) !! "_id" = None →
     inserts s' = inserts s ++ [a] ∧ updates s' = updates s) ∧
  total s' = total s + 1 ∧
  update [a] s =
    (if total s' >=? threshold s then flush false s' else Ok tt s') ∧
  (total s + 1 < threshold s → update [a] s = Ok tt s').
Proof.
  cbv zeta. split_and!.
  - intros Hid. apply has_id_true in Hid.
    unfold append_document. by rewrite Hid.
  - intros Hid. apply has_id_false in Hid.
    unfold append_document. by rewrite Hid.
  - unfold append_document. by destruct (has_id _).
  - rewrite update_single, update_one_unfold.
    unfold append_document. by destruct (has_id _).
  - intros Hlt. rewrite update_single, update_one_unfold.
    destruct (Z.geb_spec (total s + 1) (threshold s)); [lia|done].
Qed.

(** C5 (no-op flush).  Below the threshold, [flush(False)] returns
    at once in the state it was called in: no call reaches the
    collection, and the lists, [total] and both counters are as they
    were. *)
Theorem no_op_flush s :
  total s < threshold s →
  flush false s = Ok tt s ∧ calls_since s (final (flush false s)) = [].
Proof.
  intros Hlt. rewrite (flush_skips s Hlt). split; [done|].
  apply calls_since_app. by rewrite app_nil_r.
Qed.

(** C9 (missing unique field).  When a pending insert falls under the
    buffer's default unique-attribute name and has no field of that
    name, a flush raises [KeyError] in the state it started in: no call
    has been made and the lists and [total] are untouched. *)
Theorem missing_unique_field_raises s a u :
  a ∈ inserts s →
  doc_attr (heap_of s a) = None →
  unique_attr s = Some u → u ≠ EmptyString →
  doc_fields (heap_of s a) !! u = None →
  _flush s = Raise KeyError s ∧
  ∀ force, force = true ∨ threshold s ≤ total s →
           flush force s = Raise KeyError s.
Proof.
  intros Hin Hattr Hdflt Hu Hfield.
  assert (_flush s = Raise KeyError s) as Hflush.
  { unfold _flush, bind, reconcile.
    rewrite (collect_lookups_missing _ _ _ a u); try done.
    unfold getattr_unique_attr. by rewrite Hattr. }
  split; [done|]. intros force Hrun. by rewrite flush_runs.
Qed.

(** C4 (reconciliation atomicity).  The search for duplicates makes
    only find calls and changes neither list, no document and not
    [total]; when it raises, the flush raises the same exception in
    that state, so nothing has been moved and no identity attached. *)
Theorem reconciliation_atomic s lookups :
  collect_lookups (heap_of s) (unique_attr s) (inserts s) [] = inr lookups →
  let o := search_duplicates lookups s in
  (same_buffer s (final o) ∧
   ∃ finds, calls (final o) = calls s ++ finds ∧
            Forall (λ k, is_find k = true) finds) ∧
  ∀ e s1, o = Raise e s1 →
    _flush s = Raise e s1 ∧
    (∀ force, force = true ∨ threshold s ≤ total s →
              flush force s = Raise e s1) ∧
    inserts s1 = inserts s ∧ updates s1 = updates s ∧
    heap_of s1 = heap_of s ∧ total s1 = total s.
Proof.
  intros Hcollect o.
  destruct (search_loop_calls (iter_order lookups) [] s)
    as (Hsame & finds & Hcalls & Hs).
  fold (search_duplicates lookups s) in Hsame, Hcalls, Hs. fold o in Hsame, Hcalls, Hs.
  split.
  - split; [done|]. exists finds. split; [done|].
    assert (∃ asked, find_field <$> finds = Some <$> asked)
      as [asked Hasked].
    { unfold searched in Hs. destruct o; [by eexists|].
      destruct Hs as (asked & _ & ?). by eexists. }
    clear -Hasked. revert asked Hasked.
    induction finds as [|k finds IH]; intros [|f asked]; try done.
    intros [= Hk Hrest]. constructor; [by destruct k|by eapply IH].
  - intros e s1 Ho.
    assert (_flush s = Raise e s1) as Hflush.
    { unfold _flush, bind, reconcile. rewrite Hcollect.
      unfold bind. fold o. by rewrite Ho. }
    rewrite Ho in Hsame. simpl in Hsame.
    destruct Hsame as (?&?&?&?&?&?&?&?).
    split_and!; try done.
    intros force Hrun. by rewrite flush_runs.
Qed.

(** *** The threshold *)

Lemma append_document_frame a s :
  let s' := append_document a s in
  total s' = total s + 1 ∧ threshold s' = threshold s ∧
  unique_attr s' = unique_attr s ∧ calls s' = calls s ∧
  collection s' = collection s ∧ heap_of s' = heap_of s ∧
  _inserts s' = _inserts s ∧ _updates s' = _updates s ∧
  (length (updates s') + length (inserts s') =
   S (length (updates s) + length (inserts s)))%nat.
Proof.
  unfold append_document. destruct (has_id _); simpl;
    rewrite length_app; simpl; repeat split; lia.
Qed.

Lemma update_below a s :
  total s + 1 < threshold s → update [a] s = Ok tt (append_document a s).
Proof.
  intros Hlt. rewrite update_single, update_one_unfold.
  destruct (Z.geb_spec (total s + 1) (threshold s)); [lia|done].
Qed.

Lemma update_reaching a s :
  threshold s ≤ total s + 1 →
  update [a] s = flush false (append_document a s) ∧
  flush false (append_document a s) = _flush (append_document a s).
Proof.
  intros Hge. rewrite update_single, update_one_unfold.
  destruct (Z.geb_spec (total s + 1) (threshold s)); [|lia].
  split; [done|]. apply flush_runs. right.
  destruct (append_document_frame a s) as (Ht & Hth & _).
  by rewrite Ht, Hth.
Qed.

Lemma _flush_cleared s s' :
  _flush s = Ok tt s' →
  total s' = 0 ∧ updates s' = [] ∧ inserts s' = [] ∧
  threshold s' = threshold s ∧ unique_attr s' = unique_attr s.
Proof.
  intros Hflush.
  apply _flush_Ok in Hflush as (s1 & s2 & Hrec & Hwrite & Hclear).
  pose proof (reconcile_still s) as Hs1. rewrite Hrec in Hs1.
  destruct (write_documents_calls s1) as [Hs2 _]. rewrite Hwrite in Hs2.
  simpl in *. injection Hclear as <-.
  destruct Hs1 as (?&?&_), Hs2 as (?&?&_). simpl.
  split_and!; congruence.
Qed.

Lemma one_at_a_time_below docs : ∀ s,
  total s + Z.of_nat (length docs) < threshold s →
  one_at_a_time docs s =
    Ok tt (foldl (λ s a, append_document a s) s docs).
Proof.
  induction docs as [|a docs IH]; intros s Hlt; [done|].
  cbn [length] in Hlt. rewrite Nat2Z.inj_succ in Hlt.
  unfold one_at_a_time in *. cbn [for_each foldl]. unfold bind.
  rewrite update_below by lia.
  apply IH. destruct (append_document_frame a s) as (Ht & Hth & _).
  rewrite Ht, Hth. lia.
Qed.

Lemma appended_frame docs : ∀ s,
  let s' := foldl (λ s a, append_document a s) s docs in
  total s' = total s + Z.of_nat (length docs) ∧
  threshold s' = threshold s ∧ calls s' = calls s.
Proof.
  induction docs as [|a docs IH]; intros s; cbn [foldl length].
  { split_and!; [lia|done|done]. }
  destruct (IH (append_document a s)) as (Ht' & Hth' & Hc').
  destruct (append_document_frame a s) as (Ht & Hth & _ & Hc & _).
  cbv zeta. rewrite Ht', Hth', Hc', Ht, Hth, Hc.
  split_and!; [lia|done|done].
Qed.

(** C2 (threshold trigger).  Documents added one call at a time are
    buffered without any call to the collection until the one that
    brings [total] to the threshold; that call makes one
    [flush(False)], which is not skipped, and when it returns [total]
    is zero and both lists are empty.  Within one call the check
    follows every append, so a call with two documents and a threshold
    of at most one runs the flush twice. *)
Theorem threshold_trigger s docs a :
  total s + Z.of_nat (length docs) + 1 = threshold s →
  let s1 := foldl (λ s a, append_document a s) s docs in
  (one_at_a_time docs s = Ok tt s1 ∧ calls s1 = calls s ∧
   total s1 = total s + Z.of_nat (length docs)) ∧
  (update [a] s1 = flush false (append_document a s1) ∧
   flush false (append_document a s1) = _flush (append_document a s1) ∧
   ∀ s', update [a] s1 = Ok tt s' →
         total s' = 0 ∧ updates s' = [] ∧ inserts s' = []) ∧
  (∀ b rest s0,
     update (b :: rest) s0 =
     match update_one b s0 with
     | Ok _ s2 => update rest s2
     | Raise e s2 => Raise e s2
     end) ∧
  (∀ b c s0 s', threshold s0 ≤ 1 → 0 ≤ total s0 →
     update [b; c] s0 = Ok tt s' →
     ∃ s2, _flush (append_document b s0) = Ok tt s2 ∧
           _flush (append_document c s2) = Ok tt s').
Proof.
  intros Hthr s1.
  destruct (appended_frame docs s) as (Htot & Hthr1 & Hcalls).
  fold s1 in Htot, Hthr1, Hcalls.
  split_and!; try done.
  - apply one_at_a_time_below. lia.
  - apply update_reaching. lia.
  - apply update_reaching. lia.
  - intros s' Hs'.
    destruct (update_reaching a s1) as [Hu Hf]; [lia|].
    rewrite Hu, Hf in Hs'. apply _flush_cleared in Hs'. tauto.
  - intros b c s0 s' Hone Hnonneg Hupd.
    rewrite update_cons, update_one_unfold in Hupd.
    destruct (Z.geb_spec (total s0 + 1) (threshold s0)); [|lia].
    destruct (append_document_frame b s0) as (Htb & Hthb & _).
    rewrite flush_runs in Hupd by (right; lia).
    destruct (_flush (append_document b s0)) as [[] s2|] eqn:Hfb; [|done].
    exists s2. split; [done|].
    apply _flush_cleared in Hfb as (Ht2 & _ & _ & Hth2 & _).
    destruct (update_reaching c s2) as [Hu Hf]; [lia|].
    by rewrite <-Hf, <-Hu.
Qed.

(** *** The invariant and the counters *)

Lemma advance_refl s : advance s s.
Proof.
  unfold advance. split_and!; try done.
  exists []. rewrite app_nil_r. split_and!; [done|lia|lia].
Qed.

Lemma advance_trans s1 s2 s3 :
  advance s1 s2 → advance s2 s3 → advance s1 s3.
Proof.
  intros (Ht & Hu & Hinv & Hi & Hup & new & Hc & Hci & Hcu)
         (Ht' & Hu' & Hinv' & Hi' & Hup' & new' & Hc' & Hci' & Hcu').
  unfold advance. split_and!; [congruence|congruence|tauto|lia|lia|].
  exists (new ++ new'). split; [by rewrite Hc', Hc, <-app_assoc|].
  split; intros Hlt.
  - destruct (decide (_inserts s1 < _inserts s2)) as [Hlt1|Hge1].
    + destruct (Hci Hlt1) as [docs ?]. exists docs.
      apply elem_of_app. by left.
    + destruct Hci' as [docs ?]; [lia|]. exists docs.
      apply elem_of_app. by right.
  - destruct (decide (_updates s1 < _updates s2)) as [Hlt1|Hge1].
    + destruct (Hcu Hlt1) as [d ?]. exists d.
      apply elem_of_app. by left.
    + destruct Hcu' as [d ?]; [lia|]. exists d.
      apply elem_of_app. by right.
Qed.

(** A step that keeps the pending count and the counters, and only
    adds calls. *)
Lemma still_advance s s' new :
  still_pending s s' → calls s' = calls s ++ new → advance s s'.
Proof.
  intros (Hu & Ht & Htot & Hi & Hup & Hlen) Hc.
  unfold advance, pending_inv.
  split_and!; [done|done|lia|lia|lia|].
  exists new. split_and!; [done|lia|lia].
Qed.

Lemma _flush_advance s : advance s (final (_flush s)).
Proof.
  unfold _flush, bind.
  pose proof (reconcile_still s) as Hs1.
  destruct (reconcile_calls s) as (finds & Hc1 & Hfinds).
  destruct (reconcile s) as [[] s1|e s1]; simpl in *;
    [|by eapply still_advance].
  destruct (write_documents_calls s1) as (Hs2 & ws & Hc2 & Hpre & Hok).
  destruct (write_documents s1) as [[] s2|e s2]; simpl in *.
  - specialize (Hok s2 eq_refl). subst ws.
    destruct Hs1 as (Hu & Ht & Htot & Hi & Hup & Hlen).
    destruct Hs2 as (Hu' & Ht' & Htot' & Hupd & Hins & Hi' & Hup' & Hh).
    unfold advance, pending_inv. simpl.
    split_and!; [congruence|congruence|done|lia|lia|].
    exists (finds ++ writes_of s1).
    split; [by rewrite Hc2, Hc1, <-app_assoc|].
    rewrite Hins, Hupd, Hi', Hup', Hi, Hup. unfold writes_of, insert_call.
    split; intros Hlt.
    + destruct (inserts s1) as [|a l] eqn:Hl; [simpl in Hlt; lia|].
      eexists. apply elem_of_app. right. apply elem_of_app. left.
      apply list_elem_of_here.
    + destruct (updates s1) as [|a l] eqn:Hl; [simpl in Hlt; lia|].
      eexists. apply elem_of_app. right. apply elem_of_app. right.
      cbn. apply list_elem_of_here.
  - eapply (still_advance _ _ (finds ++ insert_call s1 ++ ws)).
    + eapply still_pending_trans; [exact Hs1|by apply same_buffer_still].
    + by rewrite Hc2, Hc1, <-app_assoc.
Qed.

Lemma flush_advance force s : advance s (final (flush force s)).
Proof.
  unfold flush. destruct (_ && _); [apply advance_refl|].
  apply _flush_advance.
Qed.

Lemma append_document_advance a s : advance s (append_document a s).
Proof.
  destruct (append_document_frame a s)
    as (Ht & Hth & Hu & Hc & _ & _ & Hi & Hup & Hlen).
  unfold advance, pending_inv.
  split_and!; [done|done|lia|lia|lia|].
  exists []. rewrite app_nil_r. split_and!; [done|lia|lia].
Qed.

Lemma update_one_advance a s : advance s (final (update_one a s)).
Proof.
  rewrite update_one_unfold.
  destruct (_ >=? _); [|apply append_document_advance].
  eapply advance_trans; [apply append_document_advance|].
  apply flush_advance.
Qed.

Lemma update_advance docs s : advance s (final (update docs s)).
Proof.
  unfold update.
  apply (for_each_final advance); [apply advance_refl|apply advance_trans|].
  intros a s1 _. apply update_one_advance.
Qed.

Lemma run_advance o s : advance s (final (run o s)).
Proof.
  destruct o as [docs|force|a d]; simpl.
  - apply update_advance.
  - apply flush_advance.
  - unfold advance, pending_inv. simpl. split_and!; try done.
    exists []. rewrite app_nil_r. split_and!; [done|lia|lia].
Qed.

Lemma run_all_advance ops : ∀ s, advance s (run_all ops s).
Proof.
  unfold run_all.
  induction ops as [|o ops IH]; intros s; simpl; [apply advance_refl|].
  eapply advance_trans; [apply run_advance|apply IH].
Qed.

Lemma init_inv (c : C) thr ua h : pending_inv (init c thr ua h).
Proof. done. Qed.

(** C7 (total-count invariant).  In every state reached from a new
    buffer by calls of [update] and [flush] (returning or raising) and
    by the caller changing documents, [total] is the number of pending
    updates plus the number of pending inserts.  An append adds one to
    both sides, the moves of the reconciliation keep the sum, and a
    flush that completes leaves both lists empty and [total] zero. *)
Theorem total_count_invariant :
  (∀ (c : C) thr ua h ops, pending_inv (run_all ops (init c thr ua h))) ∧
  (∀ a s, let s' := append_document a s in
     total s' = total s + 1 ∧
     (length (updates s') + length (inserts s') =
      S (length (updates s) + length (inserts s)))%nat) ∧
  (∀ lookups results s,
     let s' := final (move_matches lookups results s) in
     total s' = total s ∧
     (length (updates s') + length (inserts s') =
      length (updates s) + length (inserts s))%nat) ∧
  (∀ s s', _flush s = Ok tt s' →
     updates s' = [] ∧ inserts s' = [] ∧ total s' = 0).
Proof.
  split_and!.
  - intros c thr ua h ops.
    destruct (run_all_advance ops (init c thr ua h)) as (_ & _ & Hinv & _).
    apply Hinv, init_inv.
  - intros a s.
    destruct (append_document_frame a s) as (? & _ & _ & _ & _ & _ & _ & _ & ?).
    done.
  - intros lookups results s.
    destruct (move_matches_pending lookups results s)
      as [(_ & _ & ? & _) ?].
    done.
  - intros s s' Hflush. apply _flush_cleared in Hflush. tauto.
Qed.

(** C8 (counter monotonicity).  Over any sequence of operations
    neither [_inserts] nor [_updates] goes down; an operation that
    raises [_inserts] has made a bulk insert and one that raises
    [_updates] has made a save; and a flush that completes adds to the
    counters the lengths of the two lists as the reconciliation left
    them, which are the lists it has just written. *)
Theorem counters_monotone :
  (∀ ops s, _inserts s ≤ _inserts (run_all ops s) ∧
            _updates s ≤ _updates (run_all ops s)) ∧
  (∀ o s, let s' := final (run o s) in
     ∃ new, calls s' = calls s ++ new ∧
            (_inserts s < _inserts s' → ∃ docs, CInsert docs ∈ new) ∧
            (_updates s < _updates s' → ∃ d, CSave d ∈ new)) ∧
  (∀ s s', _flush s = Ok tt s' →
     ∃ s1, reconcile s = Ok tt s1 ∧
           _inserts s' = _inserts s + Z.of_nat (length (inserts s1)) ∧
           _updates s' = _updates s + Z.of_nat (length (updates s1)) ∧
           calls s' = calls s1 ++ writes_of s1).
Proof.
  split_and!.
  - intros ops s.
    destruct (run_all_advance ops s) as (_ & _ & _ & ? & ? & _). done.
  - intros o s. destruct (run_advance o s) as (_ & _ & _ & _ & _ & ?).
    done.
  - intros s s' Hflush.
    apply _flush_Ok in Hflush as (s1 & s2 & Hrec & Hwrite & Hclear).
    exists s1. split; [done|].
    pose proof (reconcile_still s) as Hs1. rewrite Hrec in Hs1.
    destruct (write_documents_calls s1) as (Hs2 & ws & Hc & _ & Hok).
    rewrite Hwrite in Hs2, Hc, Hok. simpl in *.
    rewrite (Hok s2 eq_refl) in Hc. injection Hclear as <-. simpl.
    destruct Hs1 as (_ & _ & _ & Hi & Hu & _).
    destruct Hs2 as (_ & _ & _ & Hupd & Hins & Hi' & Hu' & _).
    rewrite Hins, Hupd, Hi', Hu', Hi, Hu. done.
Qed.

(** *** Dicts as entry lists *)

Section alist_facts.
Context {K V : Type} `{EqDecision K}.
Implicit Types (l : list (K * V)).

Lemma alist_get_set k k' v l :
  alist_get k (alist_set k' v l) =
  if decide (k = k') then Some v else alist_get k l.
Proof.
  induction l as [|[k0 v0] l IH]; simpl.
  - by destruct (decide (k = k')).
  - destruct (decide (k' = k0)) as [->|Hne]; simpl.
    + by destruct (decide (k = k0)).
    + destruct (decide (k = k0)) as [->|?]; [|done].
      by destruct (decide (k0 = k')).
Qed.

Lemma alist_get_elem_of k v l : alist_get k l = Some v → (k, v) ∈ l.
Proof.
  induction l as [|[k0 v0] l IH]; simpl; [done|].
  destruct (decide (k = k0)) as [->|?].
  - intros [= ->]. left.
  - intros ?. right. by apply IH.
Qed.

Lemma alist_set_keys k v l :
  (alist_set k v l).*1 = if decide (k ∈ l.*1) then l.*1 else l.*1 ++ [k].
Proof.
  induction l as [|[k0 v0] l IH].
  - destruct (decide (k ∈ [].*1)) as [Hin|_]; [|done].
    by apply elem_of_nil in Hin.
  - destruct (decide (k ∈ ((k0, v0) :: l).*1)) as [Hin|Hnin];
      cbn [alist_set]; destruct (decide (k = k0)) as [->|Hne];
      rewrite ?fmap_cons in *; cbn [fst] in *.
    + done.
    + rewrite IH, decide_True; [done|].
      by apply elem_of_cons in Hin as [?|?].
    + exfalso. apply Hnin. left.
    + rewrite IH, decide_False; [done|].
      intros ?. apply Hnin. by right.
Qed.

Lemma alist_set_NoDup k v l : NoDup l.*1 → NoDup (alist_set k v l).*1.
Proof.
  intros Hnd. rewrite alist_set_keys. destruct (decide _); [done|].
  apply NoDup_app. split_and!; [done| |apply NoDup_singleton].
  intros x Hx ->%list_elem_of_singleton. done.
Qed.

Lemma alist_set_Forall (P : K * V → Prop) k v l :
  Forall P l → P (k, v) → Forall P (alist_set k v l).
Proof.
  intros Hl Hkv. induction Hl as [|[k0 v0] l Hx Hl IH]; simpl.
  - by constructor.
  - destruct (decide (k = k0)); by constructor.
Qed.

Lemma alist_of_pairs_NoDup (ps : list (K * V)) :
  NoDup (alist_of_pairs ps).*1.
Proof.
  unfold alist_of_pairs.
  assert (∀ l, NoDup l.*1 →
    NoDup (foldl (λ d p, alist_set p.1 p.2 d) l ps).*1) as Hgen.
  { induction ps as [|p ps IH]; intros l Hl; simpl; [done|].
    by apply IH, alist_set_NoDup. }
  apply Hgen. constructor.
Qed.
End alist_facts.

(** *** The lookup table holds, per name and value, the last pending
    insert filed under them *)

Lemma lookups_get_add h dflt a lookups lookups' k v :
  add_lookup h dflt a lookups = inr lookups' →
  lookups_get lookups' k v =
  if decide (key_of h dflt a = Some (k, v)) then Some a
  else lookups_get lookups k v.
Proof.
  unfold add_lookup, key_of, effective_name, lookups_get.
  destruct (truthy _); simpl.
  - destruct (getattr_unique_attr _ _) as [u|]; simpl.
    + destruct (_ !! u) as [w|]; simpl; [|done]. intros [= <-].
      rewrite alist_get_set.
      destruct (decide (k = u)) as [->|Hne]; simpl.
      * rewrite alist_get_set. destruct (decide (v = w)) as [->|Hne].
        { by rewrite decide_True. }
        rewrite decide_False by congruence.
        by destruct (alist_get u lookups).
      * by rewrite decide_False by congruence.
    + by intros [= <-].
  - by intros [= <-].
Qed.

Lemma lookups_get_collect h dflt ins k v : ∀ lookups lookups',
  collect_lookups h dflt ins lookups = inr lookups' →
  lookups_get lookups' k v =
  match last (filter (λ a, key_of h dflt a = Some (k, v)) ins) with
  | Some t => Some t
  | None => lookups_get lookups k v
  end.
Proof.
  induction ins as [|a ins IH]; intros lookups lookups'; simpl.
  - by intros [= <-].
  - destruct (add_lookup h dflt a lookups) as [e|lookups1] eqn:Hadd;
      [done|].
    intros Hrest. rewrite (IH _ _ Hrest).
    rewrite (lookups_get_add _ _ _ _ _ k v Hadd).
    rewrite filter_cons. destruct (decide _) as [Hkey|Hkey].
    + rewrite last_cons. by destruct (last _).
    + done.
Qed.

Lemma collect_lookups_sound h dflt ins lookups k v t :
  collect_lookups h dflt ins [] = inr lookups →
  lookups_get lookups k v = Some t →
  t ∈ ins ∧ key_of h dflt t = Some (k, v).
Proof.
  intros Hcollect. rewrite (lookups_get_collect _ _ _ k v _ _ Hcollect).
  destruct (last _) as [t'|] eqn:Hlast; [|done].
  intros [= ->]. apply last_Some_elem_of in Hlast.
  by apply list_elem_of_filter in Hlast as [? ?].
Qed.

Lemma collect_lookups_last h dflt before b after lookups k v :
  collect_lookups h dflt (before ++ b :: after) [] = inr lookups →
  key_of h dflt b = Some (k, v) →
  Forall (λ c, key_of h dflt c ≠ Some (k, v)) after →
  lookups_get lookups k v = Some b.
Proof.
  intros Hcollect Hb Hafter.
  rewrite (lookups_get_collect _ _ _ k v _ _ Hcollect).
  rewrite filter_app, filter_cons. rewrite decide_True by exact Hb.
  assert (filter (λ a, key_of h dflt a = Some (k, v)) after = []) as ->.
  { clear -Hafter. induction Hafter as [|c after Hc _ IH]; [done|].
    rewrite filter_cons. by rewrite decide_False. }
  by rewrite last_snoc.
Qed.

(** *** The names in the lookup table *)

Lemma add_lookup_names h dflt a lookups lookups' :
  add_lookup h dflt a lookups = inr lookups' →
  NoDup lookups.*1 →
  NoDup lookups'.*1 ∧
  ∀ k, k ∈ lookups'.*1 ↔ k ∈ lookups.*1 ∨ effective_name h dflt a = Some k.
Proof.
  unfold add_lookup, effective_name.
  destruct (truthy _); simpl.
  - destruct (getattr_unique_attr _ _) as [u|]; simpl.
    + destruct (_ !! u) as [w|]; simpl; [|done]. intros [= <-] Hnd.
      split; [by apply alist_set_NoDup|]. intros k.
      rewrite alist_set_keys. destruct (decide (u ∈ lookups.*1)).
      * split; [by left|]. intros [?|[= <-]]; done.
      * rewrite elem_of_app, list_elem_of_singleton.
        split; (intros [?|?]; [by left|right; congruence]).
    + intros [= <-] Hnd. split; [done|]. intros k.
      split; [by left|]. by intros [?|?].
  - intros [= <-] Hnd. split; [done|]. intros k.
    split; [by left|]. by intros [?|?].
Qed.

Lemma collect_lookups_names h dflt ins : ∀ lookups lookups',
  collect_lookups h dflt ins lookups = inr lookups' →
  NoDup lookups.*1 →
  NoDup lookups'.*1 ∧
  ∀ k, k ∈ lookups'.*1 ↔
       k ∈ lookups.*1 ∨ k ∈ omap (effective_name h dflt) ins.
Proof.
  induction ins as [|a ins IH]; intros lookups lookups'; simpl.
  - intros [= <-] Hnd. split; [done|]. intros k.
    split; [by left|]. intros [?|Hin]; [done|].
    by apply elem_of_nil in Hin.
  - destruct (add_lookup h dflt a lookups) as [e|lookups1] eqn:Hadd;
      [done|].
    intros Hrest Hnd.
    destruct (add_lookup_names _ _ _ _ _ Hadd Hnd) as [Hnd1 Hk1].
    destruct (IH _ _ Hrest Hnd1) as [Hnd' Hk']. split; [done|].
    intros k. rewrite Hk', Hk1.
    destruct (effective_name h dflt a) as [u|]; simpl.
    + rewrite elem_of_cons. split.
      * intros [[?|[= ->]]|?]; [by left|right; by left|right; by right].
      * intros [?|[->|?]]; [left; by left|left; by right|by right].
    + split; [intros [[?|?]|?]|intros [?|?]]; try done;
        [by left|by right|left; by left|by right].
Qed.

Lemma collect_lookups_distinct s lookups :
  collect_lookups (heap_of s) (unique_attr s) (inserts s) [] = inr lookups →
  lookups.*1 ≡ₚ distinct_names s.
Proof.
  intros Hcollect.
  destruct (collect_lookups_names _ _ _ _ _ Hcollect) as [Hnd Hk];
    [constructor|].
  apply NoDup_Permutation; [done|apply NoDup_remove_dups|].
  intros k. unfold distinct_names, lookup_names.
  rewrite elem_of_remove_dups, Hk. split; [|by right].
  intros [Hin|?]; [|done]. by apply elem_of_nil in Hin.
Qed.

(** *** The answers of the search *)

Lemma search_one_wf results entry s results' s1 :
  search_one results entry s = Ok results' s1 →
  results_wf results → results_wf results'.
Proof.
  destruct entry as [lookup values]. unfold search_one.
  destruct (coll_find _ _ _ _) as [[e|found] c]; [done|].
  destruct (found_pairs lookup found) as [ps|]; [|done].
  intros [= <- _] [Hnd Hall]. split.
  - by apply alist_set_NoDup.
  - apply alist_set_Forall; [done|]. apply alist_of_pairs_NoDup.
Qed.

Lemma search_loop_wf entries : ∀ results s results' s1,
  search_loop entries results s = Ok results' s1 →
  results_wf results → results_wf results'.
Proof.
  induction entries as [|entry entries IH];
    intros results s results' s1; simpl.
  - by intros [= <- _].
  - intros Hloop Hwf. apply bind_Ok in Hloop
      as (results1 & s2 & Hone & Hrest).
    eapply IH; [exact Hrest|]. by eapply search_one_wf.
Qed.

Lemma search_duplicates_wf lookups s results s1 :
  search_duplicates lookups s = Ok results s1 → results_wf results.
Proof.
  intros Hs. eapply search_loop_wf; [exact Hs|].
  split; constructor.
Qed.

(** *** The moves *)

Lemma for_each_app {A} (l1 l2 : list A) (body : A → M C unit) s :
  for_each (l1 ++ l2) body s =
  bind (for_each l1 body) (λ _, for_each l2 body) s.
Proof.
  revert s. induction l1 as [|x l1 IH]; intros s; simpl; [done|].
  unfold bind in *. destruct (body x s) as [[] s1|e s1]; [|done].
  apply IH.
Qed.

Lemma for_each_fmap {A B} (f : A → B) (l : list A)
    (body : B → M C unit) s :
  for_each (f <$> l) body s = for_each l (λ x, body (f x)) s.
Proof.
  revert s. induction l as [|x l IH]; intros s; simpl; [done|].
  unfold bind. destruct (body (f x) s) as [[] s1|e s1]; [|done].
  apply IH.
Qed.

Lemma move_matches_moves lookups results s :
  move_matches lookups results s =
  for_each (moves results) (λ km, move_one lookups km.1 km.2) s.
Proof.
  unfold move_matches, moves. revert s.
  induction (iter_order results) as [|e es IH]; intros s; [done|].
  rewrite bind_cons, for_each_app. simpl. unfold bind.
  rewrite for_each_fmap. simpl.
  destruct (for_each (iter_order e.2) _ s) as [[] s1|err s1]; [|done].
  apply IH.
Qed.

Lemma moves_keys_NoDup results :
  results_wf results → NoDup (move_key <$> moves results).
Proof.
  intros [Hnd Hall]. unfold moves.
  assert (NoDup (iter_order results).*1) as Hnd'.
  { by rewrite iter_order_perm. }
  assert (Forall (λ e, NoDup e.2.*1) (iter_order results)) as Hall'.
  { by rewrite iter_order_perm. }
  clear Hnd Hall. induction Hall' as [|e es He _ IH]; [constructor|].
  rewrite bind_cons, fmap_app. apply NoDup_app.
  inversion_clear Hnd' as [|?? Hnotin Hnd]. split_and!.
  - rewrite <-list_fmap_compose.
    assert (NoDup (iter_order e.2).*1) as Hperm.
    { by rewrite iter_order_perm. }
    clear -Hperm. induction (iter_order e.2) as [|m ms IH]; [constructor|].
    inversion_clear Hperm as [|?? Hm Hms]. cbn. constructor; [|by apply IH].
    intros Hin. apply Hm.
    apply list_elem_of_fmap in Hin as (m' & [= Heq] & Hin).
    apply list_elem_of_fmap. by exists m'.
  - intros kv Hin1 Hin2. apply Hnotin.
    apply list_elem_of_fmap in Hin1 as (km & -> & Hkm).
    apply list_elem_of_fmap in Hkm as (m & -> & _).
    apply list_elem_of_fmap in Hin2 as (km' & Heq & Hkm').
    apply list_elem_of_bind in Hkm' as (e' & Hkm' & He').
    apply list_elem_of_fmap in Hkm' as (m' & -> & _).
    injection Heq as -> _.
    apply list_elem_of_fmap. by exists e'.
  - by apply IH.
Qed.

Lemma elem_of_moves results k v i :
  results_get results k v = Some i →
  (k, (v, i)) ∈ moves results.
Proof.
  unfold results_get.
  destruct (alist_get k results) as [found|] eqn:Hk; [|done]. simpl.
  intros Hv. apply alist_get_elem_of in Hk, Hv.
  unfold moves. apply list_elem_of_bind. exists (k, found). split.
  - apply list_elem_of_fmap. exists (v, i). split; [done|].
    by rewrite iter_order_perm.
  - by rewrite iter_order_perm.
Qed.

(** *** Removing a document from a list without equal documents *)

Lemma list_remove_exact h t l :
  NoDup (contents h l) → t ∈ l →
  list_remove h t l = Some (filter (λ x, x ≠ t) l).
Proof.
  unfold contents. induction l as [|y l IH]; intros Hnd Hin.
  { by apply elem_of_nil in Hin. }
  rewrite fmap_cons in Hnd. inversion_clear Hnd as [|?? Hy Hl].
  cbn [list_remove]. unfold doc_eqb.
  destruct (decide (y = t)) as [->|Hne].
  - rewrite bool_decide_eq_true_2 by done. cbn [orb].
    rewrite filter_cons, decide_False by (by intros []).
    f_equal. symmetry. clear -Hy.
    induction l as [|z l IH]; [done|].
    rewrite filter_cons. rewrite fmap_cons in Hy.
    apply not_elem_of_cons in Hy as [Hz Hy].
    rewrite decide_True by congruence. f_equal. by apply IH.
  - apply elem_of_cons in Hin as [?|Hin]; [done|].
    rewrite bool_decide_eq_false_2 by done.
    rewrite bool_decide_eq_false_2.
    + cbn [orb]. rewrite (IH Hl Hin).
      by rewrite filter_cons, decide_True.
    + intros Heq. apply Hy. rewrite Heq.
      apply list_elem_of_fmap. by exists t.
Qed.

Lemma filter_all {A} (P : A → Prop) `{∀ x, Decision (P x)} (l : list A) :
  Forall P l → filter P l = l.
Proof.
  induction 1 as [|x l Hx _ IH]; [done|].
  by rewrite filter_cons, decide_True, IH.
Qed.

Lemma targets_NoDup h dflt ins lookups ms :
  collect_lookups h dflt ins [] = inr lookups →
  NoDup (move_key <$> ms) → NoDup (targets lookups ms).
Proof.
  intros Hcollect. unfold targets.
  induction ms as [|[k [v i]] ms IH]; intros Hnd; [constructor|].
  rewrite fmap_cons in Hnd. inversion_clear Hnd as [|?? Hk Hms].
  cbn [omap list_omap]. cbn [fst snd].
  destruct (lookups_get lookups k v) as [t|] eqn:Ht; [|by apply IH].
  constructor; [|by apply IH].
  intros Hin. apply Hk.
  apply list_elem_of_omap in Hin as ([k' [v' i']] & Hin & Ht').
  cbn [fst snd] in Ht'.
  destruct (collect_lookups_sound _ _ _ _ _ _ _ Hcollect Ht) as [_ Hkey].
  destruct (collect_lookups_sound _ _ _ _ _ _ _ Hcollect Ht') as [_ Hkey'].
  rewrite Hkey in Hkey'. injection Hkey' as <- <-.
  apply list_elem_of_fmap. by exists (k, (v, i')).
Qed.

(** With no two equal documents among the pending inserts, the moves
    take exactly the documents they name out of [inserts], put them at
    the end of [updates] in the order of the moves, and write the
    identity found into each; every other document is left as it
    was. *)
Lemma move_loop_spec lookups ms : ∀ s s2,
  for_each ms (λ km, move_one lookups km.1 km.2) s = Ok tt s2 →
  NoDup (contents (heap_of s) (inserts s)) →
  NoDup (targets lookups ms) →
  (∀ t, t ∈ targets lookups ms → t ∈ inserts s) →
  inserts s2 = filter (λ x, x ∉ targets lookups ms) (inserts s) ∧
  updates s2 = updates s ++ targets lookups ms ∧
  (∀ x, x ∉ targets lookups ms → heap_of s2 x = heap_of s x) ∧
  (∀ k v i t, (k, (v, i)) ∈ ms → lookups_get lookups k v = Some t →
              heap_of s2 t = set_id (heap_of s t) i).
Proof.
  unfold targets. induction ms as [|[k [v i]] ms IH]; intros s s2.
  - intros [= <-] Hnd _ _. cbn [omap list_omap]. split_and!.
    + symmetry. apply filter_all, Forall_forall. intros x _.
      apply not_elem_of_nil.
    + by rewrite app_nil_r.
    + done.
    + intros ???? Hin. by apply elem_of_nil in Hin.
  - cbn [for_each]. intros Hloop. apply bind_Ok in Hloop
      as ([] & s1 & Hone & Hrest).
    cbn [omap list_omap]. cbn [fst snd] in *.
    unfold move_one in Hone. cbn [fst snd] in Hone.
    destruct (lookups_get lookups k v) as [t|] eqn:Ht; [|done].
    intros Hnd Htargets Hsub.
    inversion_clear Htargets as [|?? Ht_notin Hnd_rest].
    assert (t ∈ inserts s) as Ht_in by (apply Hsub; left).
    unfold move_document in Hone.
    rewrite (list_remove_exact _ _ _ Hnd Ht_in) in Hone.
    injection Hone as <-.
    set (rest := omap (λ km : string * (value * value),
                         lookups_get lookups km.1 km.2.1) ms) in *.
    destruct (IH _ _ Hrest) as (Hins & Hupd & Hheap & Hset).
    + cbn. unfold contents in *.
      assert ((λ a, doc_fields ((<[t:=set_id (heap_of s t) i]> (heap_of s)) a))
                <$> filter (λ x, x ≠ t) (inserts s)
              = (λ a, doc_fields (heap_of s a))
                <$> filter (λ x, x ≠ t) (inserts s)) as ->.
      { apply list_fmap_ext. intros j x Hx.
        apply list_elem_of_lookup_2, list_elem_of_filter in Hx as [Hne _].
        by rewrite fn_lookup_insert_ne. }
      eapply sublist_NoDup; [exact Hnd|].
      apply fmap_sublist, sublist_filter.
    + done.
    + cbn. intros t' Ht'. apply list_elem_of_filter. split.
      * intros ->. done.
      * apply Hsub. by right.
    + cbn in Hins, Hupd, Hheap, Hset. split_and!.
      * rewrite Hins, list_filter_filter. apply list_filter_iff.
        intros x. rewrite not_elem_of_cons. tauto.
      * by rewrite Hupd, <-app_assoc.
      * intros x Hx. apply not_elem_of_cons in Hx as [Hne Hx].
        rewrite (Hheap x Hx). by rewrite fn_lookup_insert_ne.
      * intros k' v' i' t' Hin Ht'.
        apply elem_of_cons in Hin as [[= -> -> ->]|Hin].
        -- rewrite Ht in Ht'. injection Ht' as <-.
           rewrite (Hheap t Ht_notin). apply fn_lookup_insert.
        -- rewrite (Hset _ _ _ _ Hin Ht').
           assert (t' ∈ rest) as Hin'.
           { apply list_elem_of_omap. by exists (k', (v', i')). }
           rewrite fn_lookup_insert_ne; [done|]. by intros ->.
Qed.

(** *** A flush after its search *)

Lemma _flush_after_search s lookups results s1 :
  collect_lookups (heap_of s) (unique_attr s) (inserts s) [] = inr lookups →
  search_duplicates lookups s = Ok results s1 →
  _flush s =
  bind (move_matches lookups results)
       (λ _, bind write_documents (λ _, _clear)) s1.
Proof.
  intros Hcollect Hsearch. unfold _flush, bind, reconcile.
  rewrite Hcollect. unfold bind. by rewrite Hsearch.
Qed.

Lemma search_duplicates_calls s lookups results s1 :
  search_duplicates lookups s = Ok results s1 →
  same_buffer s s1 ∧
  ∃ finds, calls s1 = calls s ++ finds ∧
           find_field <$> finds = Some <$> (iter_order lookups).*1.
Proof.
  intros Hsearch.
  destruct (search_loop_calls (iter_order lookups) [] s)
    as (Hsame & finds & Hcalls & Hs).
  fold (search_duplicates lookups s) in Hsame, Hcalls, Hs.
  rewrite Hsearch in Hsame, Hcalls, Hs. simpl in *.
  split; [done|]. by exists finds.
Qed.

(** After the search a flush only writes. *)
Lemma _flush_writes s lookups results s1 :
  collect_lookups (heap_of s) (unique_attr s) (inserts s) [] = inr lookups →
  search_duplicates lookups s = Ok results s1 →
  ∃ ws, calls (final (_flush s)) = calls s1 ++ ws ∧
        Forall (λ k, is_write k = true) ws ∧
        ∀ s2, move_matches lookups results s1 = Ok tt s2 →
              ∃ saves, ws = insert_call s2 ++ saves.
Proof.
  intros Hcollect Hsearch.
  rewrite (_flush_after_search _ _ _ _ Hcollect Hsearch). unfold bind.
  destruct (move_matches_pending lookups results s1)
    as [(_&_&_&_&_&_&Hc) _].
  destruct (move_matches lookups results s1) as [[] s2|e s2]; simpl in *.
  - destruct (write_documents_calls s2)
      as (Hsame & saves & Hcalls & Hpre & _).
    exists (insert_call s2 ++ saves). split_and!.
    + destruct (write_documents s2) as [[] s3|e s3]; simpl in *;
        by rewrite Hcalls, Hc.
    + apply Forall_app. split.
      * unfold insert_call. destruct (inserts s2); by repeat constructor.
      * eapply Forall_forall. intros k Hk.
        eapply elem_of_prefix in Hk; [|exact Hpre].
        by apply list_elem_of_fmap in Hk as (d & -> & _).
    + intros ? [= <-]. by exists saves.
  - exists []. rewrite app_nil_r. split_and!; [done|constructor|done].
Qed.

(** The state after the moves of a flush whose pending inserts are
    pairwise different documents. *)
Lemma reconcile_moves s lookups results s1 s2 :
  collect_lookups (heap_of s) (unique_attr s) (inserts s) [] = inr lookups →
  search_duplicates lookups s = Ok results s1 →
  move_matches lookups results s1 = Ok tt s2 →
  NoDup (contents (heap_of s) (inserts s)) →
  let ts := targets lookups (moves results) in
  inserts s2 = filter (λ x, x ∉ ts) (inserts s) ∧
  updates s2 = updates s ++ ts ∧
  (∀ x, x ∉ ts → heap_of s2 x = heap_of s x) ∧
  (∀ k v i t, results_get results k v = Some i →
              lookups_get lookups k v = Some t →
              t ∈ ts ∧ heap_of s2 t = set_id (heap_of s t) i) ∧
  (∀ t, t ∈ ts → ∃ k v, lookups_get lookups k v = Some t).
Proof.
  intros Hcollect Hsearch Hmove Hnd ts.
  destruct (search_duplicates_calls _ _ _ _ Hsearch)
    as ((_&_&_&Hupd&Hins&_&_&Hheap) & _).
  rewrite move_matches_moves in Hmove.
  assert (∀ t, t ∈ ts → ∃ k v, lookups_get lookups k v = Some t) as Hts.
  { intros t Ht. apply list_elem_of_omap in Ht as ([k [v i]] & _ & Ht).
    by exists k, v. }
  destruct (move_loop_spec _ _ _ _ Hmove) as (Hi & Hu & Hh & Hset).
  - by rewrite Hins, Hheap.
  - eapply targets_NoDup; [exact Hcollect|].
    apply moves_keys_NoDup. by eapply search_duplicates_wf.
  - intros t Ht. destruct (Hts t Ht) as (k & v & Hkv). rewrite Hins.
    by destruct (collect_lookups_sound _ _ _ _ _ _ _ Hcollect Hkv).
  - fold ts in Hi, Hu, Hh. rewrite Hins in Hi. rewrite Hupd in Hu.
    rewrite Hheap in Hh, Hset. split_and!; try done.
    intros k v i t Hres Ht. apply elem_of_moves in Hres. split.
    + apply list_elem_of_omap. by exists (k, (v, i)).
    + by eapply Hset.
Qed.

Lemma remove_dups_same (u : string) (l : list string) :
  l ≠ [] → Forall (λ x, x = u) l → remove_dups l = [u].
Proof.
  intros Hne Hall. induction Hall as [|x l -> Hall IH]; [done|].
  cbn [remove_dups]. destruct l as [|y l]; case_decide as Hin.
  - by apply elem_of_nil in Hin.
  - done.
  - by apply IH.
  - exfalso. apply Hin. inversion_clear Hall as [|?? ->]. left.
Qed.

Lemma finds_fields (finds : list call) (asked : list string) :
  find_field <$> finds = Some <$> asked →
  omap find_field finds = asked ∧
  filter (λ k, is_find k = true) finds = finds.
Proof.
  revert asked. induction finds as [|k finds IH]; intros [|f asked];
    try done.
  intros [= Hk Hrest]. destruct (IH _ Hrest) as [Ho Hf].
  destruct k; try done. injection Hk as ->.
  cbn [omap list_omap find_field]. rewrite filter_cons. cbn.
  split; f_equal; done.
Qed.

Lemma writes_fields (ws : list call) :
  Forall (λ k, is_write k = true) ws →
  omap find_field ws = [] ∧ filter (λ k, is_find k = true) ws = [].
Proof.
  induction 1 as [|k ws Hk _ [Ho Hf]]; [done|].
  destruct k; try done; rewrite filter_cons; cbn; done.
Qed.

Lemma bulk_insert_carries s a :
  a ∈ inserts s →
  insert_call s = [CInsert (snapshot (heap_of s) (inserts s))] ∧
  (a, doc_fields (heap_of s a)) ∈ snapshot (heap_of s) (inserts s) ∧
  (snapshot (heap_of s) (inserts s)).*1 = inserts s.
Proof.
  intros Hin. unfold insert_call, snapshot. split_and!.
  - destruct (inserts s); [by apply elem_of_nil in Hin|done].
  - apply list_elem_of_fmap. by exists a.
  - rewrite <-list_fmap_compose. apply list_fmap_id.
Qed.

Lemma key_of_name h dflt a k v :
  key_of h dflt a = Some (k, v) →
  effective_name h dflt a = Some k ∧ doc_fields (h a) !! k = Some v.
Proof.
  unfold key_of. destruct (effective_name h dflt a) as [u|]; [|done].
  simpl. destruct (_ !! u) as [w|] eqn:Hw; [|done]. simpl.
  by intros [= <- <-].
Qed.

(** C6 (one query per name), as the code has it.  In a flush whose
    lookup phase completes, the find calls are one per distinct
    effective unique-attribute name among the pending inserts that
    have one; so pending inserts that all share one name make exactly
    one query.  A pending insert without such a name is under no entry
    of the lookup table; when the moves complete and no two pending
    inserts are equal as dicts, it stays in [inserts] as it was and is
    handed to the bulk insert. *)
Theorem one_query_per_name s lookups results s1 :
  collect_lookups (heap_of s) (unique_attr s) (inserts s) [] = inr lookups →
  search_duplicates lookups s = Ok results s1 →
  let new := calls_since s (final (_flush s)) in
  (omap find_field new ≡ₚ distinct_names s ∧
   length (filter (λ k, is_find k = true) new) =
   length (distinct_names s)) ∧
  (∀ u, inserts s ≠ [] →
        Forall (λ a, effective_name (heap_of s) (unique_attr s) a = Some u)
               (inserts s) →
        length (filter (λ k, is_find k = true) new) = 1%nat) ∧
  (∀ a, a ∈ inserts s →
        effective_name (heap_of s) (unique_attr s) a = None →
        (∀ k v, lookups_get lookups k v ≠ Some a) ∧
        ∀ s2, move_matches lookups results s1 = Ok tt s2 →
              NoDup (contents (heap_of s) (inserts s)) →
              a ∈ inserts s2 ∧ heap_of s2 a = heap_of s a ∧
              ∃ docs, CInsert docs ∈ new ∧
                      (a, doc_fields (heap_of s a)) ∈ docs).
Proof.
  intros Hcollect Hsearch new.
  destruct (search_duplicates_calls _ _ _ _ Hsearch)
    as (Hsame & finds & Hc1 & Hfinds).
  destruct (_flush_writes _ _ _ _ Hcollect Hsearch)
    as (ws & Hc2 & Hws & Hmoved).
  assert (new = finds ++ ws) as Hnew.
  { apply calls_since_app. by rewrite Hc2, Hc1, <-app_assoc. }
  destruct (finds_fields _ _ Hfinds) as [Hof Hff].
  destruct (writes_fields _ Hws) as [How Hfw].
  assert (length (filter (λ k, is_find k = true) new) =
          length (distinct_names s)) as Hlen.
  { rewrite Hnew, filter_app, Hff, Hfw, app_nil_r.
    rewrite <-(length_fmap find_field), Hfinds, !length_fmap.
    rewrite iter_order_perm.
    by rewrite <-(collect_lookups_distinct _ _ Hcollect), length_fmap. }
  split_and!.
  - rewrite Hnew, omap_app, Hof, How, app_nil_r, iter_order_perm.
    by apply collect_lookups_distinct.
  - done.
  - intros u Hne Hall. rewrite Hlen. unfold distinct_names, lookup_names.
    rewrite (remove_dups_same u); [done| |].
    + destruct (inserts s) as [|a l]; [done|].
      inversion_clear Hall as [|?? Ha _]. cbn. by rewrite Ha.
    + apply Forall_forall. intros x Hx.
      apply list_elem_of_omap in Hx as (a & Ha & Hx).
      eapply Forall_forall in Hall; [|exact Ha]. congruence.
  - intros a Ha Hname.
    assert (∀ k v, lookups_get lookups k v ≠ Some a) as Hno.
    { intros k v Hkv.
      destruct (collect_lookups_sound _ _ _ _ _ _ _ Hcollect Hkv)
        as [_ Hkey].
      apply key_of_name in Hkey as [Hkey _]. congruence. }
    split; [done|]. intros s2 Hmove Hnd.
    destruct (reconcile_moves _ _ _ _ _ Hcollect Hsearch Hmove Hnd)
      as (Hins & _ & Hheap & _ & Hts).
    assert (a ∉ targets lookups (moves results)) as Hnot.
    { intros Hin. destruct (Hts a Hin) as (k & v & Hkv).
      by eapply Hno. }
    assert (a ∈ inserts s2) as Ha2.
    { rewrite Hins. by apply list_elem_of_filter. }
    split_and!; [done|by apply Hheap|].
    destruct (Hmoved s2 Hmove) as (saves & ->).
    destruct (bulk_insert_carries s2 a Ha2) as (Hcall & Hin & _).
    rewrite (Hheap a Hnot) in Hin. eexists. split; [|exact Hin].
    rewrite Hnew, Hcall. apply elem_of_app. right. left.
Qed.

(** C10 (same value twice), as the code has it.  When pending inserts
    share an effective name and its value, the lookup table keeps the
    last of them.  If the search found that value, and the moves
    complete, and no two pending inserts are equal as dicts, then the
    last one gets the identity found and goes from [inserts] to
    [updates], while every earlier one stays in [inserts] unchanged
    and is handed, with that value, to the bulk insert. *)
Theorem duplicate_value_last_wins
    s lookups results s1 s2 before a b after k v i :
  collect_lookups (heap_of s) (unique_attr s) (inserts s) [] = inr lookups →
  search_duplicates lookups s = Ok results s1 →
  move_matches lookups results s1 = Ok tt s2 →
  NoDup (contents (heap_of s) (inserts s)) →
  inserts s = before ++ b :: after → a ∈ before →
  key_of (heap_of s) (unique_attr s) a = Some (k, v) →
  key_of (heap_of s) (unique_attr s) b = Some (k, v) →
  Forall (λ c, key_of (heap_of s) (unique_attr s) c ≠ Some (k, v)) after →
  results_get results k v = Some i →
  lookups_get lookups k v = Some b ∧
  (b ∈ updates s2 ∧ (b ∉ inserts s2) ∧
   heap_of s2 b = set_id (heap_of s b) i) ∧
  (a ∈ inserts s2 ∧ heap_of s2 a = heap_of s a ∧
   (a ∉ updates s → a ∉ updates s2)) ∧
  ∃ docs, CInsert docs ∈ calls_since s (final (_flush s)) ∧
          (a, doc_fields (heap_of s a)) ∈ docs ∧ (b ∉ docs.*1) ∧
          doc_fields (heap_of s a) !! k = Some v.
Proof.
  intros Hcollect Hsearch Hmove Hnd Hins Ha Hka Hkb Hafter Hres.
  assert (lookups_get lookups k v = Some b) as Hb.
  { rewrite Hins in Hcollect. by eapply collect_lookups_last. }
  destruct (reconcile_moves _ _ _ _ _ Hcollect Hsearch Hmove Hnd)
    as (Hins2 & Hupd2 & Hheap & Hset & Hts).
  destruct (Hset _ _ _ _ Hres Hb) as [Hb_in Hb_heap].
  assert (a ≠ b) as Hab.
  { intros ->. unfold contents in Hnd. rewrite Hins, fmap_app in Hnd.
    apply NoDup_app in Hnd as (_ & Hdisj & _).
    apply (Hdisj (doc_fields (heap_of s b))).
    - apply list_elem_of_fmap. by exists b.
    - rewrite fmap_cons. left. }
  assert (a ∉ targets lookups (moves results)) as Ha_notin.
  { intros Hin. destruct (Hts a Hin) as (k' & v' & Hkv).
    destruct (collect_lookups_sound _ _ _ _ _ _ _ Hcollect Hkv)
      as [_ Hkey].
    rewrite Hka in Hkey. injection Hkey as <- <-. congruence. }
  assert (a ∈ inserts s2) as Ha2.
  { rewrite Hins2. apply list_elem_of_filter. split; [done|].
    rewrite Hins. apply elem_of_app. by left. }
  assert (b ∉ inserts s2) as Hb2.
  { rewrite Hins2. intros [Hnot _]%list_elem_of_filter. done. }
  split_and!; try done.
  - rewrite Hupd2. apply elem_of_app. by right.
  - by apply Hheap.
  - intros Hnot. rewrite Hupd2. intros [?|?]%elem_of_app; done.
  - destruct (search_duplicates_calls _ _ _ _ Hsearch)
      as (_ & finds & Hc1 & _).
    destruct (_flush_writes _ _ _ _ Hcollect Hsearch)
      as (ws & Hc2 & _ & Hmoved).
    destruct (Hmoved s2 Hmove) as (saves & ->).
    destruct (bulk_insert_carries s2 a Ha2) as (Hcall & Hin & Hfst).
    rewrite (Hheap a Ha_notin) in Hin.
    eexists. split_and!; [|exact Hin| |].
    + rewrite (calls_since_app s _ (finds ++ insert_call s2 ++ saves)).
      * rewrite Hcall. apply elem_of_app. right. left.
      * by rewrite Hc2, Hc1, <-app_assoc.
    + by rewrite Hfst.
    + by apply key_of_name in Hka as [_ ?].
Qed.

End properties.

(** ** Further properties of the buffer *)

Section more_properties.
Context {C : Type} `{!Collection C} `{!DictOrder}.
Implicit Types (s : state C).

(** *** Every document taken is written or pending *)

Lemma still_pending_accounted s s' :
  still_pending s s' → accounted s' = accounted s.
Proof.
  intros (_ & _ & _ & Hi & Hu & Hlen). unfold accounted.
  rewrite Hi, Hu, Hlen. done.
Qed.

Lemma _flush_accounted s : accounted (final (_flush s)) = accounted s.
Proof.
  unfold _flush, bind.
  pose proof (reconcile_still s) as Hs1.
  destruct (reconcile s) as [[] s1|e s1]; simpl in *;
    [|by apply still_pending_accounted].
  destruct (write_documents_calls s1) as (Hs2 & _).
  apply same_buffer_still in Hs2.
  pose proof (still_pending_trans _ _ _ Hs1 Hs2) as Hs.
  destruct (write_documents s1) as [[] s2|e s2]; simpl in *;
    [|by apply still_pending_accounted].
  rewrite <-(still_pending_accounted _ _ Hs).
  unfold accounted. simpl. lia.
Qed.

Lemma flush_accounted force s :
  accounted (final (flush force s)) = accounted s.
Proof.
  unfold flush. destruct (_ && _); [done|apply _flush_accounted].
Qed.

Lemma append_document_accounted a s :
  accounted (append_document a s) = accounted s + 1.
Proof.
  destruct (append_document_frame a s)
    as (_ & _ & _ & _ & _ & _ & Hi & Hu & Hlen).
  unfold accounted. rewrite Hi, Hu, Hlen. lia.
Qed.

Lemma update_one_accounted a s :
  accounted (final (update_one a s)) = accounted s + 1.
Proof.
  rewrite update_one_unfold. destruct (_ >=? _); simpl.
  - by rewrite flush_accounted, append_document_accounted.
  - apply append_document_accounted.
Qed.

Lemma update_accounted docs : ∀ s,
  let o := update docs s in
  accounted s ≤ accounted (final o) ≤ accounted s + Z.of_nat (length docs) ∧
  ∀ s', o = Ok tt s' →
        accounted s' = accounted s + Z.of_nat (length docs).
Proof.
  induction docs as [|a docs IH]; intros s.
  - simpl. split; [lia|]. intros s' [= <-]. lia.
  - rewrite update_cons. cbn [length]. rewrite Nat2Z.inj_succ.
    pose proof (update_one_accounted a s) as Ha.
    destruct (update_one a s) as [[] s1|e s1]; simpl in *.
    + destruct (IH s1) as [Hle Hok]. split; [lia|].
      intros s' Hs'. rewrite (Hok s' Hs'). lia.
    + split; [lia|done].
Qed.

(** X1.  Counting the documents written ([_inserts + _updates]) and the
    documents pending, a flush changes nothing, however it ends; an
    [update] call that returns adds the number of its documents, and
    one that raises adds at most that; after a flush that completes the
    two counters alone make up the count.  So once calls of [update]
    that all return are followed by a flush that returns, the counters
    have grown by the number of documents passed. *)
Theorem documents_accounted :
  (∀ force s, accounted (final (flush force s)) = accounted s) ∧
  (∀ docs s,
     accounted s ≤ accounted (final (update docs s))
       ≤ accounted s + Z.of_nat (length docs)) ∧
  (∀ docs s s', update docs s = Ok tt s' →
     accounted s' = accounted s + Z.of_nat (length docs)) ∧
  (∀ s s', _flush s = Ok tt s' →
     _inserts s' + _updates s' = accounted s) ∧
  (∀ (batches : list (list addr)) s s1 s2,
     for_each batches update s = Ok tt s1 → flush true s1 = Ok tt s2 →
     _inserts s2 + _updates s2 =
     accounted s + Z.of_nat (length (concat batches))).
Proof.
  assert (∀ s s', _flush s = Ok tt s' →
                  _inserts s' + _updates s' = accounted s) as Hdone.
  { intros s s' Hflush. pose proof (_flush_accounted s) as Hacc.
    rewrite Hflush in Hacc. simpl in Hacc. rewrite <-Hacc.
    apply _flush_cleared in Hflush as (_ & Hu & Hi & _).
    unfold accounted. rewrite Hu, Hi. simpl. lia. }
  split_and!.
  - apply flush_accounted.
  - intros docs s. apply update_accounted.
  - intros docs s s'. apply update_accounted.
  - exact Hdone.
  - intros batches s s1 s2 Hupd Hflush.
    rewrite flush_runs in Hflush by (by left).
    rewrite (Hdone _ _ Hflush). clear Hflush s2.
    revert s Hupd. induction batches as [|docs batches IH]; intros s.
    + simpl. intros [= <-]. lia.
    + cbn [for_each concat]. intros Hupd.
      apply bind_Ok in Hupd as ([] & s0 & Hdocs & Hrest).
      rewrite (IH _ Hrest), length_app, Nat2Z.inj_add.
      destruct (update_accounted docs s) as [_ Hok].
      rewrite (Hok _ Hdocs). lia.
Qed.

(** *** Splitting a call *)

(** X2.  One [update] call with the documents of two calls behaves as
    the two calls in a row, and so as one call per document. *)
Theorem update_splits :
  (∀ docs1 docs2 s,
     update (docs1 ++ docs2) s =
     match update docs1 s with
     | Ok _ s1 => update docs2 s1
     | Raise e s1 => Raise e s1
     end) ∧
  (∀ docs s, one_at_a_time docs s = update docs s).
Proof.
  split.
  - intros docs1 docs2 s. unfold update. apply for_each_app.
  - intros docs. unfold one_at_a_time.
    induction docs as [|a docs IH]; intros s; [done|].
    cbn [for_each]. unfold bind. rewrite update_single, update_cons.
    destruct (update_one a s) as [[] s1|e s1]; [|done]. apply IH.
Qed.

(** *** The empty buffer *)

Lemma iter_order_nil {A} : iter_order (@nil A) = [].
Proof. apply Permutation_nil_r. apply iter_order_perm. Qed.

Lemma _flush_empty s :
  updates s = [] → inserts s = [] →
  _flush s =
  Ok tt (with_total 0
          (with_inserts []
            (with_updates []
              (with_counts (_inserts s + 0) (_updates s + 0) s)))).
Proof.
  intros Hu Hi. unfold _flush, bind, reconcile. rewrite Hi. simpl.
  unfold bind, search_duplicates, move_matches.
  rewrite iter_order_nil. simpl. rewrite iter_order_nil. simpl.
  unfold write_documents, bind, insert_all. simpl. rewrite Hi, Hu. simpl.
  unfold _clear. simpl. by rewrite Hi, Hu.
Qed.

(** X3.  With nothing pending a flush, forced or not, returns without
    a single call on the collection; the counters, the documents and
    the (empty) lists are as before. *)
Theorem empty_flush force s :
  updates s = [] → inserts s = [] →
  let s' := final (flush force s) in
  flush force s = Ok tt s' ∧ calls s' = calls s ∧
  collection s' = collection s ∧ heap_of s' = heap_of s ∧
  _inserts s' = _inserts s ∧ _updates s' = _updates s ∧
  updates s' = [] ∧ inserts s' = [].
Proof.
  intros Hu Hi. unfold flush. destruct (_ && _); cbv zeta.
  - by split_and!.
  - rewrite (_flush_empty s Hu Hi). cbn -[Z.add].
    split_and!; [done|done|done|done|lia|lia|done|done].
Qed.

(** *** The threshold as a bound *)

Lemma update_one_flushed a s s' :
  threshold s ≤ total s + 1 → update_one a s = Ok tt s' →
  total s' = 0 ∧ updates s' = [] ∧ inserts s' = [] ∧
  threshold s' = threshold s.
Proof.
  intros Hge Hupd. destruct (update_reaching a s Hge) as [Hu Hf].
  rewrite update_single in Hu. rewrite Hu, Hf in Hupd.
  apply _flush_cleared in Hupd as (? & ? & ? & Hthr & _).
  destruct (append_document_frame a s) as (_ & Hthr' & _).
  split_and!; try done. congruence.
Qed.

(** X4.  With a positive threshold, an [update] call that starts below
    the threshold and returns ends below it: the buffer never holds
    [threshold] documents between calls. *)
Theorem buffer_stays_below_threshold docs : ∀ s s',
  0 < threshold s → total s < threshold s →
  update docs s = Ok tt s' →
  total s' < threshold s' ∧ threshold s' = threshold s.
Proof.
  induction docs as [|a docs IH]; intros s s' Hpos Hlt.
  - by intros [= <-].
  - rewrite update_cons.
    destruct (update_one a s) as [[] s1|e s1] eqn:Hone; [|done].
    intros Hrest.
    assert (total s1 < threshold s1 ∧ threshold s1 = threshold s)
      as [Hlt1 Hthr1].
    { destruct (decide (threshold s ≤ total s + 1)) as [Hge|Hbelow].
      - destruct (update_one_flushed _ _ _ Hge Hone) as (Ht & _ & _ & Hth).
        rewrite Ht, Hth. done.
      - rewrite <-update_single, update_below in Hone by lia.
        injection Hone as <-.
        destruct (append_document_frame a s) as (Ht & Hth & _).
        rewrite Ht, Hth. split; [lia|done]. }
    destruct (IH s1 s') as [? Hthr']; [lia|done|done|].
    split; [done|congruence].
Qed.

(** X5.  With a threshold of at most one (zero and negative ones
    included), an [update] call with at least one document that returns
    leaves nothing buffered: every document was flushed as it came. *)
Theorem eager_threshold docs : ∀ s s',
  threshold s ≤ 1 → 0 ≤ total s → docs ≠ [] →
  update docs s = Ok tt s' →
  total s' = 0 ∧ updates s' = [] ∧ inserts s' = [].
Proof.
  induction docs as [|a docs IH]; intros s s' Hthr Htot Hne; [done|].
  rewrite update_cons.
  destruct (update_one a s) as [[] s1|e s1] eqn:Hone; [|done].
  assert (threshold s ≤ total s + 1) as Hge by lia.
  destruct (update_one_flushed _ _ _ Hge Hone) as (Ht & Hu & Hi & Hth).
  destruct docs as [|b docs].
  - intros [= <-]. done.
  - apply IH; [lia|lia|done].
Qed.

(** *** The calls of a flush *)

(** X6.  However a flush ends, its calls are find queries, then at most
    one bulk insert, then saves; the bulk insert is never given an
    empty list. *)
Theorem flush_call_protocol force s :
  ∃ finds ins saves,
    calls (final (flush force s)) = calls s ++ finds ++ ins ++ saves ∧
    Forall (λ k, is_find k = true) finds ∧
    (ins = [] ∨ ∃ docs, ins = [CInsert docs] ∧ docs ≠ []) ∧
    Forall (λ k, is_save k = true) saves.
Proof.
  unfold flush. destruct (_ && _).
  { exists [], [], []. rewrite !app_nil_r. split_and!; [done| |by left|];
      constructor. }
  unfold _flush, bind.
  destruct (reconcile_calls s) as (finds & Hc1 & Hfinds).
  destruct (reconcile s) as [[] s1|e s1]; simpl in *.
  - destruct (write_documents_calls s1) as (Hsame & saves & Hc2 & Hpre & _).
    exists finds, (insert_call s1), saves. split_and!.
    + destruct (write_documents s1) as [[] s2|e s2]; simpl in *;
        by rewrite Hc2, Hc1, <-app_assoc.
    + done.
    + unfold insert_call, snapshot.
      destruct (inserts s1); [by left|right]. by eexists.
    + apply Forall_forall. intros k Hk.
      eapply elem_of_prefix in Hk; [|exact Hpre].
      by apply list_elem_of_fmap in Hk as (d & -> & _).
  - exists finds, [], []. rewrite !app_nil_r.
    split_and!; [done|done|by left|constructor].
Qed.


(** *** The answers of a query *)

Lemma alist_of_pairs_get {K V : Type} `{EqDecision K}
    (ps : list (K * V)) (k : K) :
  alist_get k (alist_of_pairs ps) =
  snd <$> last (filter (λ p, p.1 = k) ps).
Proof.
  unfold alist_of_pairs.
  assert (∀ acc : list (K * V),
    alist_get k (foldl (λ d p, alist_set p.1 p.2 d) acc ps) =
    match last (filter (λ p, p.1 = k) ps) with
    | Some p => Some p.2
    | None => alist_get k acc
    end) as Hgen.
  { induction ps as [|[k' v'] ps IH]; intros acc; [done|].
    cbn [foldl]. rewrite IH, filter_cons. cbn [fst snd].
    rewrite alist_get_set.
    destruct (decide (k' = k)) as [->|Hne].
    - rewrite decide_True by done. rewrite last_cons.
      by destruct (last _).
    - by rewrite decide_False by congruence. }
  rewrite Hgen. by destruct (last _).
Qed.

Lemma found_pairs_Some lookup found :
  Forall (λ d, is_Some (d !! lookup) ∧ is_Some (d !! "_id")) found →
  ∃ ps, found_pairs lookup found = Some ps ∧
        Forall2 (λ d p, d !! lookup = Some p.1 ∧ d !! "_id" = Some p.2)
                found ps.
Proof.
  induction 1 as [|d found [[v Hv] [i Hi]] _ (ps & Hps & Hall)].
  - exists []. split; [done|constructor].
  - exists ((v, i) :: ps). cbn [found_pairs]. rewrite Hv, Hi, Hps.
    split; [done|]. by constructor.
Qed.

Lemma last_answer (lookup : string) (v : value)
    (found : list (gmap string value)) (ps : list (value * value)) :
  Forall2 (λ d p, d !! lookup = Some p.1 ∧ d !! "_id" = Some p.2)
          found ps →
  snd <$> last (filter (λ p, p.1 = v) ps) =
  last (filter (λ d, d !! lookup = Some v) found) ≫= (.!! "_id").
Proof.
  intros Hall.
  assert (match last (filter (λ d, d !! lookup = Some v) found),
                last (filter (λ p, p.1 = v) ps) with
          | Some d, Some p => d !! "_id" = Some p.2
          | None, None => True
          | _, _ => False
          end) as Hlast.
  { induction Hall as [|d p found ps [Hd Hi] _ IH]; [done|].
    rewrite !filter_cons, Hd.
    destruct (decide (p.1 = v)) as [Hv|Hv].
    - rewrite decide_True by congruence. rewrite !last_cons.
      by destruct (last (filter _ found)), (last (filter _ ps)).
    - rewrite decide_False by congruence. done. }
  destruct (last (filter _ found)), (last (filter _ ps)); simpl; done.
Qed.

Lemma found_pairs_None lookup found :
  ¬ Forall (λ d, is_Some (d !! lookup) ∧ is_Some (d !! "_id")) found →
  found_pairs lookup found = None.
Proof.
  induction found as [|d found IH]; intros Hnot.
  - exfalso. apply Hnot. constructor.
  - cbn [found_pairs].
    destruct (d !! lookup) as [v|] eqn:Hv; [|done].
    destruct (d !! "_id") as [i|] eqn:Hi; [|done].
    rewrite IH; [done|]. intros Hall. apply Hnot.
    constructor; [|done]. by rewrite Hv, Hi.
Qed.

(** X8.  A query whose answers all carry the field asked for and an
    ['_id'] files, under each value, the identity of the last answer
    with that value; an answer lacking either makes the search raise
    [KeyError], after the query was made. *)
Theorem last_answer_wins results lookup values s found c :
  coll_find (collection s) lookup (iter_order values).*1
            (find_keys lookup) = (inr found, c) →
  let o := search_one results (lookup, values) s in
  (Forall (λ d, is_Some (d !! lookup) ∧ is_Some (d !! "_id")) found →
   ∃ results', o = Ok results' (called (query_of (lookup, values)) c s) ∧
     ∀ v, results_get results' lookup v =
          last (filter (λ d, d !! lookup = Some v) found) ≫= (.!! "_id")) ∧
  (¬ Forall (λ d, is_Some (d !! lookup) ∧ is_Some (d !! "_id")) found →
   o = Raise KeyError (called (query_of (lookup, values)) c s)).
Proof.
  intros Hfind. unfold search_one, query_of. cbn [fst snd].
  rewrite Hfind. split.
  - intros Hall. destruct (found_pairs_Some _ _ Hall) as (ps & -> & Hps).
    eexists. split; [done|]. intros v. unfold results_get.
    rewrite alist_get_set, decide_True by done. simpl.
    rewrite alist_of_pairs_get. by apply last_answer.
  - intros Hnot. by rewrite (found_pairs_None _ _ Hnot).
Qed.

(** *** What the queries ask for *)

Lemma search_one_query results entry s :
  calls (final (search_one results entry s)) = calls s ++ [query_of entry].
Proof.
  destruct entry as [lookup values]. unfold search_one, query_of.
  cbn [fst snd].
  destruct (coll_find _ _ _ _) as [[e|found] c]; [done|].
  by destruct (found_pairs lookup found).
Qed.

Lemma search_loop_queries entries : ∀ results s,
  ∃ qs, calls (final (search_loop entries results s)) = calls s ++ qs ∧
        qs `prefix_of` (query_of <$> entries).
Proof.
  induction entries as [|entry entries IH]; intros results s.
  - exists []. simpl. by rewrite app_nil_r.
  - cbn [search_loop]. unfold bind.
    pose proof (search_one_query results entry s) as Hq.
    destruct (search_one results entry s) as [results' s1|e s1];
      simpl in Hq.
    + destruct (IH results' s1) as (qs & Hcalls & Hpre).
      exists (query_of entry :: qs). split.
      * rewrite Hcalls, Hq. by rewrite <-app_assoc.
      * rewrite fmap_cons. by apply prefix_cons.
    + exists [query_of entry]. split; [done|].
      rewrite fmap_cons. apply prefix_cons, prefix_nil.
Qed.

Lemma add_lookup_inner h dflt a lookups lookups' :
  add_lookup h dflt a lookups = inr lookups' →
  Forall (λ e, NoDup e.2.*1) lookups → Forall (λ e, NoDup e.2.*1) lookups'.
Proof.
  unfold add_lookup. destruct (truthy _); [|by intros [= <-]].
  destruct (getattr_unique_attr _ _) as [u|]; [|by intros [= <-]].
  destruct (_ !! u) as [w|]; [|done]. intros [= <-] Hall.
  apply alist_set_Forall; [done|]. cbn [snd]. apply alist_set_NoDup.
  destruct (alist_get u lookups) as [values|] eqn:Hu; simpl.
  - apply alist_get_elem_of in Hu.
    eapply Forall_forall in Hall; [|exact Hu]. done.
  - constructor.
Qed.

Lemma collect_lookups_inner h dflt ins : ∀ lookups lookups',
  collect_lookups h dflt ins lookups = inr lookups' →
  Forall (λ e, NoDup e.2.*1) lookups → Forall (λ e, NoDup e.2.*1) lookups'.
Proof.
  induction ins as [|a ins IH]; intros lookups lookups'; simpl.
  - by intros [= <-].
  - destruct (add_lookup h dflt a lookups) as [e|lookups1] eqn:Hadd;
      [done|].
    intros Hrest Hall. eapply IH; [exact Hrest|].
    by eapply add_lookup_inner.
Qed.

Lemma alist_get_NoDup {K V : Type} `{EqDecision K}
    (l : list (K * V)) k v :
  NoDup l.*1 → (k, v) ∈ l → alist_get k l = Some v.
Proof.
  induction l as [|[k0 v0] l IH]; intros Hnd Hin.
  { by apply elem_of_nil in Hin. }
  rewrite fmap_cons in Hnd. inversion_clear Hnd as [|?? Hk0 Hl].
  cbn [alist_get]. apply elem_of_cons in Hin as [[= -> ->]|Hin].
  - by rewrite decide_True.
  - rewrite decide_False; [by apply IH|]. intros ->. apply Hk0.
    apply list_elem_of_fmap. by exists (k0, v).
Qed.

Lemma alist_get_keys {K V : Type} `{EqDecision K} (l : list (K * V)) k :
  k ∈ l.*1 ↔ is_Some (alist_get k l).
Proof.
  induction l as [|[k0 v0] l IH]; cbn [alist_get].
  - split; [by intros ?%elem_of_nil|by intros [? ?]].
  - rewrite fmap_cons, elem_of_cons. cbn [fst].
    destruct (decide (k = k0)) as [->|Hne].
    + split; [by eexists|by left].
    + rewrite <-IH. split; [by intros [?|?]|by right].
Qed.

(** X9.  Every find query of a flush asks, for one unique-attribute
    name, exactly for the values the pending inserts looked up by that
    name have in that field, each value once, and projects that field
    and ['_id']. *)
Theorem queries_ask_for_candidates s lookups f vals keys :
  collect_lookups (heap_of s) (unique_attr s) (inserts s) [] = inr lookups →
  CFind f vals keys ∈ calls_since s (final (_flush s)) →
  keys = find_keys f ∧ NoDup vals ∧
  ∀ v, v ∈ vals ↔
       ∃ a, a ∈ inserts s ∧
            key_of (heap_of s) (unique_attr s) a = Some (f, v).
Proof.
  intros Hcollect Hin.
  assert (CFind f vals keys ∈ query_of <$> iter_order lookups) as Hq.
  { destruct (search_loop_queries (iter_order lookups) [] s)
      as (qs & Hcalls & Hpre).
    fold (search_duplicates lookups s) in Hcalls.
    destruct (search_duplicates lookups s) as [results s1|e s1] eqn:Hs.
    - destruct (_flush_writes _ _ _ _ Hcollect Hs) as (ws & Hc2 & Hws & _).
      simpl in Hcalls.
      rewrite (calls_since_app s _ (qs ++ ws)) in Hin
        by (by rewrite Hc2, Hcalls, <-app_assoc).
      apply elem_of_app in Hin as [Hin|Hin].
      + by eapply elem_of_prefix.
      + eapply Forall_forall in Hws; [|exact Hin]. done.
    - assert (_flush s = Raise e s1) as Hflush.
      { unfold _flush, bind, reconcile. rewrite Hcollect.
        unfold bind. by rewrite Hs. }
      rewrite Hflush in Hin. simpl in Hin, Hcalls.
      rewrite (calls_since_app s _ qs Hcalls) in Hin.
      by eapply elem_of_prefix. }
  apply list_elem_of_fmap in Hq as ([f' values] & [= -> -> ->] & He).
  rewrite iter_order_perm in He.
  destruct (collect_lookups_names _ _ _ _ _ Hcollect) as [Hnd _];
    [constructor|].
  pose proof (alist_get_NoDup _ _ _ Hnd He) as Hf.
  assert (NoDup values.*1) as Hvalues.
  { assert (Forall (λ e, NoDup e.2.*1) lookups) as Hall.
    { eapply collect_lookups_inner; [exact Hcollect|constructor]. }
    eapply Forall_forall in Hall; [|exact He]. done. }
  split_and!; [done|by rewrite iter_order_perm|].
  intros v. rewrite iter_order_perm, alist_get_keys.
  assert (alist_get v values = lookups_get lookups f' v) as ->.
  { unfold lookups_get. by rewrite Hf. }
  rewrite (lookups_get_collect _ _ _ f' v _ _ Hcollect).
  destruct (last _) as [t|] eqn:Hlast.
  - split; [|by eexists]. intros _. exists t.
    apply last_Some_elem_of in Hlast.
    by apply list_elem_of_filter in Hlast as [? ?].
  - split; [by intros [? ?]|]. intros (a & Ha & Hkey). exfalso.
    apply last_None in Hlast.
    assert (a ∈ filter (λ a, key_of (heap_of s) (unique_attr s) a =
                             Some (f', v)) (inserts s)) as Hfa.
    { by apply list_elem_of_filter. }
    rewrite Hlast in Hfa. by apply elem_of_nil in Hfa.
Qed.

(** *** Saves are given identified documents *)

Lemma same_buffer_identified s s' :
  same_buffer s s' → updates_identified s → updates_identified s'.
Proof.
  intros (_ & _ & _ & Hu & _ & _ & _ & Hh) Hid a.
  rewrite Hu, Hh. apply Hid.
Qed.

Lemma move_document_identified a _id s :
  updates_identified s →
  updates_identified (final (move_document a _id s)).
Proof.
  intros Hid. unfold move_document.
  destruct (list_remove _ _ _) as [ins|]; [|done].
  intros x Hx. cbn in *.
  destruct (decide (x = a)) as [->|Hne].
  - rewrite fn_lookup_insert. cbn. rewrite lookup_insert_eq. by eexists.
  - rewrite fn_lookup_insert_ne by done.
    apply elem_of_app in Hx as [Hx|Hx]; [by apply Hid|].
    by apply list_elem_of_singleton in Hx.
Qed.

Lemma move_matches_identified lookups results s :
  updates_identified s →
  updates_identified (final (move_matches lookups results s)).
Proof.
  unfold move_matches. revert s.
  apply (for_each_final
           (λ s s', updates_identified s → updates_identified s'));
    [done|by auto|].
  intros entry s1 _.
  apply (for_each_final
           (λ s s', updates_identified s → updates_identified s'));
    [done|by auto|].
  intros m s2 _. unfold move_one. destruct (lookups_get _ _ _); [|done].
  apply move_document_identified.
Qed.

Lemma reconcile_identified s :
  updates_identified s → updates_identified (final (reconcile s)).
Proof.
  intros Hid. unfold reconcile.
  destruct (collect_lookups _ _ _ _) as [e|lookups]; [done|].
  unfold bind, search_duplicates.
  destruct (search_loop_calls (iter_order lookups) [] s) as [Hsame _].
  destruct (search_loop _ _ s) as [results s1|e s1]; simpl in *.
  - apply move_matches_identified. by eapply same_buffer_identified.
  - by eapply same_buffer_identified.
Qed.

(** X10.  If every pending update has an ['_id'] when a flush starts,
    every document the flush hands to [save] has one: the documents the
    reconciliation moves get theirs before they are saved, and no
    identity is ever removed. *)
Theorem saves_carry_identity force s a d :
  updates_identified s →
  CSave (a, d) ∈ calls_since s (final (flush force s)) →
  is_Some (d !! "_id").
Proof.
  intros Hid. unfold flush. destruct (_ && _).
  { simpl. unfold calls_since. rewrite drop_all.
    by intros ?%elem_of_nil. }
  unfold _flush, bind.
  pose proof (reconcile_identified s Hid) as Hid1.
  destruct (reconcile_calls s) as (finds & Hc1 & Hfinds).
  destruct (reconcile s) as [[] s1|e s1]; simpl in *.
  - destruct (write_documents_calls s1) as (_ & saves & Hc2 & Hpre & _).
    intros Hin.
    assert (calls (final (match write_documents s1 with
                          | Ok _ s2 => _clear s2
                          | Raise e s2 => Raise e s2
                          end)) = calls s ++ finds ++ insert_call s1 ++ saves)
      as Hcalls.
    { destruct (write_documents s1) as [[] s2|e s2]; simpl in *;
        by rewrite Hc2, Hc1, <-app_assoc. }
    rewrite (calls_since_app s _ _ Hcalls) in Hin.
    apply elem_of_app in Hin as [Hin|Hin].
    { eapply Forall_forall in Hfinds; [|exact Hin]. done. }
    apply elem_of_app in Hin as [Hin|Hin].
    { unfold insert_call in Hin. destruct (inserts s1).
      - by apply elem_of_nil in Hin.
      - by apply list_elem_of_singleton in Hin. }
    eapply elem_of_prefix in Hin; [|exact Hpre].
    apply list_elem_of_fmap in Hin as ([a' d'] & [= -> ->] & Hin).
    apply list_elem_of_fmap in Hin as (x & [= -> ->] & Hx).
    by apply Hid1.
  - intros Hin. rewrite (calls_since_app s _ _ Hc1) in Hin.
    eapply Forall_forall in Hfinds; [|exact Hin]. done.
Qed.

(** *** Nothing pending is skipped *)

(** X11.  When no two pending inserts are equal as dicts, a flush that
    completes writes every pending document: each pending update is
    saved, and each pending insert is either saved or in the bulk
    insert. *)
Theorem completed_flush_writes_all s s' a :
  _flush s = Ok tt s' →
  NoDup (contents (heap_of s) (inserts s)) →
  (a ∈ updates s → saved a (calls_since s s')) ∧
  (a ∈ inserts s →
   saved a (calls_since s s') ∨ bulk_inserted a (calls_since s s')).
Proof.
  intros Hflush Hnd.
  apply _flush_Ok in Hflush as (s2 & s3 & Hrec & Hwrite & Hclear).
  apply reconcile_Ok in Hrec as (lookups & results & s1 & Hcollect
                                 & Hsearch & Hmove).
  destruct (reconcile_moves _ _ _ _ _ Hcollect Hsearch Hmove Hnd)
    as (Hins & Hupd & _).
  destruct (search_duplicates_calls _ _ _ _ Hsearch)
    as (_ & finds & Hc1 & _).
  destruct (move_matches_pending lookups results s1)
    as [(_&_&_&_&_&_&Hc2) _].
  rewrite Hmove in Hc2. simpl in Hc2.
  destruct (write_documents_calls s2) as (_ & saves & Hc3 & _ & Hok).
  rewrite Hwrite in Hc3, Hok. simpl in Hc3.
  rewrite (Hok s3 eq_refl) in Hc3. injection Hclear as <-.
  assert (calls_since s
            (with_total 0
              (with_inserts []
                (with_updates []
                  (with_counts
                     (_inserts s3 + Z.of_nat (length (inserts s3)))
                     (_updates s3 + Z.of_nat (length (updates s3))) s3))))
          = finds ++ insert_call s2 ++
            (CSave <$> snapshot (heap_of s2) (updates s2))) as ->.
  { apply calls_since_app. simpl. by rewrite Hc3, Hc2, Hc1, <-app_assoc. }
  assert (∀ x, x ∈ updates s2 →
               saved x (finds ++ insert_call s2 ++
                        (CSave <$> snapshot (heap_of s2) (updates s2))))
    as Hsaved.
  { intros x Hx. exists (doc_fields (heap_of s2 x)).
    apply elem_of_app. right. apply elem_of_app. right.
    apply list_elem_of_fmap. eexists. split; [done|].
    apply list_elem_of_fmap. by exists x. }
  split.
  - intros Ha. apply Hsaved. rewrite Hupd. apply elem_of_app. by left.
  - intros Ha.
    destruct (decide (a ∈ targets lookups (moves results))) as [Ht|Ht].
    + left. apply Hsaved. rewrite Hupd. apply elem_of_app. by right.
    + right. assert (a ∈ inserts s2) as Ha2.
      { rewrite Hins. by apply list_elem_of_filter. }
      destruct (bulk_insert_carries s2 a Ha2) as (Hcall & _ & Hfst).
      eexists. split.
      * apply elem_of_app. right. apply elem_of_app. left.
        rewrite Hcall. apply list_elem_of_here.
      * by rewrite Hfst.
Qed.

End more_properties.

(** ** Properties of Photo *)

Section photo_properties.
Context {V E : Type}.
Context (realpath : string → string)
        (read_metadata : string → E + Photo.metadata V)
        (stat_size : V → E + Z)
        (AttributeError : E)
        (of_int : Z → V).

Lemma copied_lookup (meta self : gmap string V) k :
  (filter (λ kv, kv.1 ∈ Photo.copykeys) meta ∪ self) !! k =
  if decide (k ∈ Photo.copykeys) then
    match meta !! k with Some v => Some v | None => self !! k end
  else self !! k.
Proof.
  rewrite lookup_union, map_lookup_filter.
  destruct (meta !! k) as [v|]; simpl.
  - destruct (decide (k ∈ Photo.copykeys)) as [Hk|Hk].
    + rewrite option_guard_True by done. simpl.
      by destruct (self !! k).
    + rewrite option_guard_False by done. simpl.
      by destruct (self !! k).
  - destruct (decide _); by destruct (self !! k).
Qed.

Lemma size_not_copied : "size" ∉ Photo.copykeys.
Proof. apply (bool_decide_unpack _). by vm_compute. Qed.

(** X12.  Once the metadata was read, [from_path] leaves every
    attribute outside the six copied keys and [size] as it was, gives
    each of the six keys the metadata's value when it has one and keeps
    the old value otherwise, whether the call then returns or raises;
    when it returns, [size] is the size [os.stat] gave for the
    metadata's path. *)
Theorem from_path_copies_whitelist self path meta :
  read_metadata (realpath path) = inr meta →
  let r := Photo.from_path realpath read_metadata stat_size AttributeError of_int
             self path in
  (∀ k, k ∉ Photo.copykeys → k ≠ "size" → r.2 !! k = self !! k) ∧
  (∀ k, k ∈ Photo.copykeys →
        r.2 !! k = match Photo.md_dict meta !! k with
                   | Some v => Some v
                   | None => self !! k
                   end) ∧
  (r.1 = inr tt →
   ∃ p size, Photo.md_path meta = Some p ∧ stat_size p = inr size ∧
             r.2 !! "size" = Some (of_int size)).
Proof.
  intros Hmeta. unfold Photo.from_path. rewrite Hmeta.
  assert (∀ k, k ∈ Photo.copykeys → k ≠ "size") as Hsize.
  { intros k Hk Heq. subst k. exact (size_not_copied Hk). }
  assert (∀ (m : gmap string V) k, k ∉ Photo.copykeys →
    (filter (λ kv, kv.1 ∈ Photo.copykeys) (Photo.md_dict meta) ∪ m) !! k
    = m !! k) as Hout.
  { intros m k Hk. by rewrite copied_lookup, decide_False. }
  assert (∀ (m : gmap string V) k, k ∈ Photo.copykeys →
    (filter (λ kv, kv.1 ∈ Photo.copykeys) (Photo.md_dict meta) ∪ m) !! k
    = match Photo.md_dict meta !! k with
      | Some v => Some v
      | None => m !! k
      end) as Hin.
  { intros m k Hk. by rewrite copied_lookup, decide_True. }
  destruct (Photo.md_path meta) as [p|];
    [destruct (stat_size p) as [e|size] eqn:Hstat|]; cbn [fst snd].
  - split_and!; [by auto|by auto|done].
  - split_and!.
    + intros k Hk Hne. rewrite lookup_insert_ne by done. by apply Hout.
    + intros k Hk. rewrite lookup_insert_ne; [by apply Hin|].
      apply not_eq_sym. by apply Hsize.
    + intros _. exists p, size. by rewrite lookup_insert_eq.
  - split_and!; [by auto|by auto|done].
Qed.

(** X13.  [from_path] raises in three ways.  If the metadata cannot be
    read, no attribute has changed.  If the metadata object has no
    [path], or [os.stat] raises, the metadata has already been copied
    and [size] is left as it was. *)
Theorem from_path_failures self path :
  (∀ e, read_metadata (realpath path) = inl e →
        Photo.from_path realpath read_metadata stat_size AttributeError of_int
          self path = (inl e, self)) ∧
  (∀ meta, read_metadata (realpath path) = inr meta →
     let copied :=
       filter (λ kv, kv.1 ∈ Photo.copykeys) (Photo.md_dict meta) ∪ self in
     copied !! "size" = self !! "size" ∧
     (Photo.md_path meta = None →
      Photo.from_path realpath read_metadata stat_size AttributeError of_int
        self path = (inl AttributeError, copied)) ∧
     (∀ p e, Photo.md_path meta = Some p → stat_size p = inl e →
             Photo.from_path realpath read_metadata stat_size
               AttributeError of_int self path = (inl e, copied))).
Proof.
  split.
  - intros e He. unfold Photo.from_path. by rewrite He.
  - intros meta Hmeta copied. unfold Photo.from_path. rewrite Hmeta.
    split_and!.
    + unfold copied. rewrite copied_lookup, decide_False; [done|].
      apply size_not_copied.
    + by intros ->.
    + intros p e -> ->. done.
Qed.

End photo_properties.

(** ** The properties on concrete buffers *)

Import Examples.


Lemma update_classifies_witness :
  inserts (append_document 0%nat fresh) = [0%nat] ∧
  updates (append_document 0%nat fresh) = [] ∧
  total (append_document 0%nat fresh) = 1 ∧
  update [0%nat] fresh = Ok tt (append_document 0%nat fresh).
Proof.
  destruct (update_classifies fresh 0%nat) as (_ & Hins & Htot & _ & Hbelow).
  destruct Hins as [Hi Hu]; [vm_compute; reflexivity|].
  split_and!; [exact Hi|exact Hu|exact Htot|].
  apply Hbelow. vm_compute; reflexivity.
Defined.

Lemma threshold_trigger_witness :
  total fresh + Z.of_nat (length [0%nat]) + 1 = threshold fresh ∧
  one_at_a_time [0%nat] fresh = Ok tt (append_document 0%nat fresh) ∧
  update [1%nat] (append_document 0%nat fresh) =
    _flush (append_document 1%nat (append_document 0%nat fresh)) ∧
  total (final (update [1%nat] (append_document 0%nat fresh))) = 0.
Proof.
  split; [vm_compute; reflexivity|].
  destruct (threshold_trigger fresh [0%nat] 1%nat)
    as ((Hbuf & _) & (Hupd & Hrun & Hzero) & _); [vm_compute; reflexivity|].
  split_and!.
  - exact Hbuf.
  - exact (eq_trans Hupd Hrun).
  - apply (Hzero (final (update [1%nat] (append_document 0%nat fresh)))).
    vm_compute. reflexivity.
Defined.

Lemma reconciliation_atomic_witness :
  collect_lookups (heap_of shared_value_down) (unique_attr shared_value_down)
    (inserts shared_value_down) [] = inr email_lookups ∧
  search_duplicates email_lookups shared_value_down =
    Raise (StoreError 0)
      (final (search_duplicates email_lookups shared_value_down)) ∧
  _flush shared_value_down =
    Raise (StoreError 0)
      (final (search_duplicates email_lookups shared_value_down)) ∧
  inserts (final (_flush shared_value_down)) = inserts shared_value_down ∧
  updates (final (_flush shared_value_down)) = updates shared_value_down.
Proof.
  assert (collect_lookups (heap_of shared_value_down)
            (unique_attr shared_value_down) (inserts shared_value_down) []
          = inr email_lookups) as Hcollect by (vm_compute; reflexivity).
  assert (search_duplicates email_lookups shared_value_down =
          Raise (StoreError 0)
            (final (search_duplicates email_lookups shared_value_down)))
    as Hsearch by (vm_compute; reflexivity).
  destruct (reconciliation_atomic shared_value_down email_lookups Hcollect)
    as [_ Hraise].
  destruct (Hraise _ _ Hsearch) as (Hflush & _ & Hins & Hupd & _).
  split_and!; [exact Hcollect|exact Hsearch|exact Hflush| |].
  - rewrite Hflush. exact Hins.
  - rewrite Hflush. exact Hupd.
Defined.

Lemma no_op_flush_witness :
  total shared_value < threshold shared_value ∧
  flush false shared_value = Ok tt shared_value ∧
  calls_since shared_value (final (flush false shared_value)) = [].
Proof.
  split; [vm_compute; reflexivity|]. apply no_op_flush. vm_compute; reflexivity.
Defined.

Lemma missing_unique_field_raises_witness :
  2%nat ∈ inserts missing_field ∧
  doc_fields (heap_of missing_field 2%nat) !! "email" = None ∧
  _flush missing_field = Raise KeyError missing_field ∧
  flush true missing_field = Raise KeyError missing_field.
Proof.
  assert (2%nat ∈ inserts missing_field) as Hin.
  { apply (bool_decide_unpack _). vm_compute; reflexivity. }
  assert (doc_fields (heap_of missing_field 2%nat) !! "email" = None)
    as Hnone by (vm_compute; reflexivity).
  destruct (missing_unique_field_raises missing_field 2%nat "email")
    as [Hflush Hforce]; [exact Hin|vm_compute; reflexivity|vm_compute; reflexivity|done|
                         exact Hnone|].
  split_and!; [exact Hin|exact Hnone|exact Hflush|].
  apply Hforce. by left.
Defined.

Lemma total_count_invariant_witness :
  pending_inv
    (run_all [Update [0%nat]; Flush true; Update [1%nat; 2%nat]; Flush false]
             (init remote 2 (Some "email") people)) ∧
  total (append_document 0%nat fresh) = total fresh + 1.
Proof.
  destruct (@total_count_invariant MemStore.store _ _)
    as (Hinv & Happend & _ & _).
  split; [apply Hinv|apply Happend].
Defined.

Lemma counters_monotone_witness :
  _inserts shared_value ≤
    _inserts (run_all [Flush true; Update [2%nat]] shared_value) ∧
  _updates shared_value ≤
    _updates (run_all [Flush true; Update [2%nat]] shared_value) ∧
  _inserts (final (_flush shared_value)) = _inserts shared_value + 1 ∧
  _updates (final (_flush shared_value)) = _updates shared_value + 1.
Proof.
  destruct (@counters_monotone MemStore.store _ _) as (Hmono & _ & Hflush).
  destruct (Hmono [Flush true; Update [2%nat]] shared_value) as [Hi Hu].
  destruct (Hflush shared_value (final (_flush shared_value)))
    as (s1 & Hrec & Hins & Hupd & _); [vm_compute; reflexivity|].
  assert (s1 = final (reconcile shared_value)) as -> by (by rewrite Hrec).
  split_and!; [exact Hi|exact Hu| |].
  - rewrite Hins. vm_compute. reflexivity.
  - rewrite Hupd. vm_compute. reflexivity.
Defined.

Lemma one_query_per_name_witness :
  collect_lookups (heap_of mixed_names) (unique_attr mixed_names)
    (inserts mixed_names) [] = inr mixed_lookups ∧
  search_duplicates mixed_lookups mixed_names =
    Ok mixed_results (final (search_duplicates mixed_lookups mixed_names)) ∧
  length (filter (λ k, is_find k = true)
            (calls_since mixed_names (final (_flush mixed_names)))) =
  length (distinct_names mixed_names) ∧
  distinct_names mixed_names = ["email"; "path"].
Proof.
  assert (collect_lookups (heap_of mixed_names) (unique_attr mixed_names)
            (inserts mixed_names) [] = inr mixed_lookups) as Hcollect.
  { vm_compute. reflexivity. }
  assert (search_duplicates mixed_lookups mixed_names =
          Ok mixed_results
             (final (search_duplicates mixed_lookups mixed_names)))
    as Hsearch.
  { vm_compute. reflexivity. }
  destruct (one_query_per_name mixed_names mixed_lookups mixed_results _
              Hcollect Hsearch) as ((_ & Hlen) & _ & _).
  split_and!; [exact Hcollect|exact Hsearch|exact Hlen|].
  vm_compute. reflexivity.
Defined.

Lemma duplicate_value_last_wins_witness :
  collect_lookups (heap_of shared_value) (unique_attr shared_value)
    (inserts shared_value) [] = inr email_lookups ∧
  NoDup (contents (heap_of shared_value) (inserts shared_value)) ∧
  inserts shared_value = [0%nat] ++ 1%nat :: [] ∧
  key_of (heap_of shared_value) (unique_attr shared_value) 0%nat =
    Some ("email", VStr "a") ∧
  key_of (heap_of shared_value) (unique_attr shared_value) 1%nat =
    Some ("email", VStr "a") ∧
  results_get email_results "email" (VStr "a") = Some (VInt 1) ∧
  lookups_get email_lookups "email" (VStr "a") = Some 1%nat ∧
  bulk_inserted 0%nat
    (calls_since shared_value (final (_flush shared_value))) ∧
  ¬ bulk_inserted 1%nat
    (calls_since shared_value (final (_flush shared_value))).
Proof.
  set (s1 := final (search_duplicates email_lookups shared_value)).
  set (s2 := final (move_matches email_lookups email_results s1)).
  assert (collect_lookups (heap_of shared_value) (unique_attr shared_value)
            (inserts shared_value) [] = inr email_lookups) as Hcollect.
  { vm_compute. reflexivity. }
  assert (search_duplicates email_lookups shared_value = Ok email_results s1)
    as Hsearch.
  { vm_compute. reflexivity. }
  assert (move_matches email_lookups email_results s1 = Ok tt s2) as Hmove.
  { vm_compute. reflexivity. }
  assert (NoDup (contents (heap_of shared_value) (inserts shared_value)))
    as Hnd.
  { apply (bool_decide_unpack _). vm_compute. reflexivity. }
  assert (inserts shared_value = [0%nat] ++ 1%nat :: []) as Hins.
  { vm_compute. reflexivity. }
  assert (key_of (heap_of shared_value) (unique_attr shared_value) 0%nat =
          Some ("email", VStr "a")) as Hka.
  { vm_compute. reflexivity. }
  assert (key_of (heap_of shared_value) (unique_attr shared_value) 1%nat =
          Some ("email", VStr "a")) as Hkb.
  { vm_compute. reflexivity. }
  assert (results_get email_results "email" (VStr "a") = Some (VInt 1))
    as Hres.
  { vm_compute. reflexivity. }
  destruct (duplicate_value_last_wins shared_value email_lookups
              email_results s1 s2 [0%nat] 0%nat 1%nat [] "email" (VStr "a")
              (VInt 1) Hcollect Hsearch Hmove Hnd Hins)
    as (Hlast & _ & _ & docs & Hcall & Ha & Hb & _);
    [apply list_elem_of_here|exact Hka|exact Hkb|constructor|exact Hres|].
  split_and!; [exact Hcollect|exact Hnd|exact Hins|exact Hka|exact Hkb|
               exact Hres|exact Hlast| |].
  - exists docs. split; [exact Hcall|].
    apply list_elem_of_fmap.
    exists (0%nat, doc_fields (heap_of shared_value 0%nat)).
    split; [reflexivity|exact Ha].
  - intros (docs' & Hcall' & Hb').
    assert (calls_since shared_value (final (_flush shared_value)) =
      [CFind "email" [VStr "a"] ["email"; "_id"];
       CInsert [(0%nat, {["email" := VStr "a"; "name" := VStr "A"]})];
       CSave (1%nat, {["_id" := VInt 1; "email" := VStr "a";
                       "name" := VStr "B"]})]) as Hcalls.
    { vm_compute. reflexivity. }
    rewrite Hcalls in Hcall'.
    repeat (apply elem_of_cons in Hcall' as [Hcall'|Hcall'];
            try discriminate Hcall').
    + injection Hcall' as ->. cbn in Hb'.
      apply list_elem_of_singleton in Hb'. discriminate Hb'.
    + by apply elem_of_nil in Hcall'.
Defined.

(** C1 (dedup merge), at two pending inserts with one e-mail that the
    store already holds: the forced flush returns; the second document
    is saved with the identity found, but the first is bulk-inserted
    without it, and the store ends with two documents for that
    e-mail. *)
Theorem dedup_merge_shared_value :
  flush true shared_value = Ok tt (final (flush true shared_value)) ∧
  calls_since shared_value (final (flush true shared_value)) =
    [CFind "email" [VStr "a"] ["email"; "_id"];
     CInsert [(0%nat, {["email" := VStr "a"; "name" := VStr "A"]})];
     CSave (1%nat, {["_id" := VInt 1; "email" := VStr "a";
                     "name" := VStr "B"]})] ∧
  MemStore.docs (collection (final (flush true shared_value))) =
    [ {["_id" := VInt 1; "email" := VStr "a"; "name" := VStr "B"]};
      {["_id" := VInt 2; "email" := VStr "a"; "name" := VStr "A"]} ].
Proof. split_and!; vm_compute; reflexivity. Qed.

Lemma one_query_per_name_counterexample :
  (length (filter (λ k, is_find k = true)
             (calls_since missing_field (final (_flush missing_field)))) ≠
   length (distinct_names missing_field)) ∧
  (0%nat ∈ inserts plain_twin ∧
   effective_name (heap_of plain_twin) (unique_attr plain_twin) 0%nat = None ∧
   _flush plain_twin = Ok tt (final (_flush plain_twin)) ∧
   ¬ bulk_inserted 0%nat
       (calls_since plain_twin (final (_flush plain_twin)))).
Proof.
  split.
  - vm_compute. discriminate.
  - split_and!.
    + apply (bool_decide_unpack _). vm_compute. reflexivity.
    + vm_compute. reflexivity.
    + vm_compute. reflexivity.
    + intros (docs & Hcall & Ha).
      assert (calls_since plain_twin (final (_flush plain_twin)) =
        [CFind "email" [VStr "a"] ["email"; "_id"];
         CInsert [(1%nat, {["_id" := VInt 1; "email" := VStr "a"]})];
         CSave (1%nat, {["_id" := VInt 1; "email" := VStr "a"]})])
        as Hcalls.
      { vm_compute. reflexivity. }
      rewrite Hcalls in Hcall.
      repeat (apply elem_of_cons in Hcall as [Hcall|Hcall];
              try discriminate Hcall).
      * injection Hcall as ->. cbn in Ha.
        apply list_elem_of_singleton in Ha. discriminate Ha.
      * by apply elem_of_nil in Hcall.
Qed.

Lemma duplicate_value_last_wins_counterexample :
  (inserts equal_twins = [0%nat; 1%nat] ∧
   key_of (heap_of equal_twins) (unique_attr equal_twins) 0%nat =
     Some ("email", VStr "a") ∧
   key_of (heap_of equal_twins) (unique_attr equal_twins) 1%nat =
     Some ("email", VStr "a") ∧
   reconcile equal_twins = Ok tt (final (reconcile equal_twins)) ∧
   inserts (final (reconcile equal_twins)) = [1%nat] ∧
   updates (final (reconcile equal_twins)) = [1%nat] ∧
   ¬ bulk_inserted 0%nat
       (calls_since equal_twins (final (_flush equal_twins)))) ∧
  (_flush missing_field = Raise KeyError missing_field ∧
   inserts missing_field = [0%nat; 1%nat; 2%nat] ∧
   key_of (heap_of missing_field) (unique_attr missing_field) 0%nat =
     Some ("email", VStr "a") ∧
   key_of (heap_of missing_field) (unique_attr missing_field) 1%nat =
     Some ("email", VStr "a")).
Proof.
  split.
  - split_and!; [vm_compute; reflexivity ..|].
    intros (docs & Hcall & Ha).
    assert (calls_since equal_twins (final (_flush equal_twins)) =
      [CFind "email" [VStr "a"] ["email"; "_id"];
       CInsert [(1%nat, {["_id" := VInt 1; "email" := VStr "a"]})];
       CSave (1%nat, {["_id" := VInt 1; "email" := VStr "a"]})])
      as Hcalls.
    { vm_compute. reflexivity. }
    rewrite Hcalls in Hcall.
    repeat (apply elem_of_cons in Hcall as [Hcall|Hcall];
            try discriminate Hcall).
    + injection Hcall as ->. cbn in Ha.
      apply list_elem_of_singleton in Ha. discriminate Ha.
    + by apply elem_of_nil in Hcall.
  - split_and!; vm_compute; reflexivity.
Qed.

(** ** The further properties on concrete inputs *)

Import Examples MoreExamples.

Lemma documents_accounted_witness :
  update [0%nat; 1%nat] fresh = Ok tt (final (update [0%nat; 1%nat] fresh)) ∧
  accounted (final (update [0%nat; 1%nat] fresh)) = accounted fresh + 2 ∧
  _inserts (final (_flush shared_value)) +
  _updates (final (_flush shared_value)) = accounted shared_value.
Proof.
  destruct (@documents_accounted MemStore.store _ _)
    as (_ & _ & Hupd & Hflush & _).
  assert (update [0%nat; 1%nat] fresh =
          Ok tt (final (update [0%nat; 1%nat] fresh))) as Hok.
  { vm_compute. reflexivity. }
  split_and!; [exact Hok|exact (Hupd _ _ _ Hok)|].
  apply Hflush. vm_compute. reflexivity.
Defined.

Lemma empty_flush_witness :
  updates fresh = [] ∧ inserts fresh = [] ∧
  flush true fresh = Ok tt (final (flush true fresh)) ∧
  calls (final (flush true fresh)) = calls fresh.
Proof.
  assert (updates fresh = []) as Hu by reflexivity.
  assert (inserts fresh = []) as Hi by reflexivity.
  destruct (empty_flush true fresh Hu Hi) as (Hok & Hcalls & _).
  split_and!; [exact Hu|exact Hi|exact Hok|exact Hcalls].
Defined.

Lemma buffer_stays_below_threshold_witness :
  0 < threshold fresh ∧ total fresh < threshold fresh ∧
  update [0%nat; 1%nat] fresh = Ok tt (final (update [0%nat; 1%nat] fresh)) ∧
  total (final (update [0%nat; 1%nat] fresh)) <
  threshold (final (update [0%nat; 1%nat] fresh)).
Proof.
  assert (0 < threshold fresh) as Hpos by (vm_compute; reflexivity).
  assert (total fresh < threshold fresh) as Hlt by (vm_compute; reflexivity).
  assert (update [0%nat; 1%nat] fresh =
          Ok tt (final (update [0%nat; 1%nat] fresh))) as Hok.
  { vm_compute. reflexivity. }
  destruct (buffer_stays_below_threshold _ _ _ Hpos Hlt Hok) as [Hbelow _].
  split_and!; [exact Hpos|exact Hlt|exact Hok|exact Hbelow].
Defined.

Lemma eager_threshold_witness :
  threshold eager ≤ 1 ∧ 0 ≤ total eager ∧
  update [0%nat; 1%nat] eager = Ok tt (final (update [0%nat; 1%nat] eager)) ∧
  total (final (update [0%nat; 1%nat] eager)) = 0 ∧
  inserts (final (update [0%nat; 1%nat] eager)) = [].
Proof.
  assert (threshold eager ≤ 1) as Hthr by (vm_compute; discriminate).
  assert (0 ≤ total eager) as Htot by (vm_compute; discriminate).
  assert (update [0%nat; 1%nat] eager =
          Ok tt (final (update [0%nat; 1%nat] eager))) as Hok.
  { vm_compute. reflexivity. }
  destruct (eager_threshold [0%nat; 1%nat] _ _ Hthr Htot ltac:(discriminate)
              Hok) as (Ht & _ & Hi).
  split_and!; [exact Hthr|exact Htot|exact Hok|exact Ht|exact Hi].
Defined.


Lemma last_answer_wins_witness :
  coll_find (collection asked_twice) "email"
    (iter_order [(VStr "a", 0%nat)]).*1 (find_keys "email") =
  (inr [ {["email" := VStr "a"; "_id" := VInt 1]};
         {["email" := VStr "a"; "_id" := VInt 5]} ], remote_twice) ∧
  results_get
    (match search_one [] ("email", [(VStr "a", 0%nat)]) asked_twice with
     | Ok results _ => results
     | Raise _ _ => []
     end) "email" (VStr "a") = Some (VInt 5).
Proof.
  assert (coll_find (collection asked_twice) "email"
            (iter_order [(VStr "a", 0%nat)]).*1 (find_keys "email") =
          (inr [ {["email" := VStr "a"; "_id" := VInt 1]};
                 {["email" := VStr "a"; "_id" := VInt 5]} ], remote_twice))
    as Hfind.
  { vm_compute. reflexivity. }
  destruct (last_answer_wins [] "email" [(VStr "a", 0%nat)] asked_twice
              _ _ Hfind) as [Hgood _].
  destruct Hgood as (results' & Hok & Hget).
  { apply (bool_decide_unpack _). vm_compute. reflexivity. }
  split; [exact Hfind|]. rewrite Hok, Hget. vm_compute. reflexivity.
Defined.

Lemma queries_ask_for_candidates_witness :
  collect_lookups (heap_of mixed_names) (unique_attr mixed_names)
    (inserts mixed_names) [] = inr mixed_lookups ∧
  CFind "email" [VStr "a"; VStr "b"] ["email"; "_id"]
    ∈ calls_since mixed_names (final (_flush mixed_names)) ∧
  NoDup [VStr "a"; VStr "b"] ∧
  ∃ a, a ∈ inserts mixed_names ∧
       key_of (heap_of mixed_names) (unique_attr mixed_names) a =
       Some ("email", VStr "b").
Proof.
  assert (collect_lookups (heap_of mixed_names) (unique_attr mixed_names)
            (inserts mixed_names) [] = inr mixed_lookups) as Hcollect.
  { vm_compute. reflexivity. }
  assert (CFind "email" [VStr "a"; VStr "b"] ["email"; "_id"]
            ∈ calls_since mixed_names (final (_flush mixed_names))) as Hin.
  { assert (calls_since mixed_names (final (_flush mixed_names)) !! 0%nat =
            Some (CFind "email" [VStr "a"; VStr "b"] ["email"; "_id"]))
      as Hfirst by (vm_compute; reflexivity).
    eapply list_elem_of_lookup_2. exact Hfirst. }
  destruct (queries_ask_for_candidates _ _ _ _ _ Hcollect Hin)
    as (_ & Hnd & Hvals).
  split_and!; [exact Hcollect|exact Hin|exact Hnd|].
  apply Hvals. right. left.
Defined.

Lemma saves_carry_identity_witness :
  updates_identified update_and_insert ∧
  CSave (0%nat, {["_id" := VInt 9; "name" := VStr "Z"]})
    ∈ calls_since update_and_insert (final (flush true update_and_insert)) ∧
  is_Some (({["_id" := VInt 9; "name" := VStr "Z"]} : gmap string value)
             !! "_id").
Proof.
  assert (updates_identified update_and_insert) as Hid.
  { intros a Ha.
    assert (updates update_and_insert = [0%nat]) as Hu
      by (vm_compute; reflexivity).
    rewrite Hu in Ha. apply list_elem_of_singleton in Ha. subst a.
    apply (bool_decide_unpack _). vm_compute. reflexivity. }
  assert (CSave (0%nat, {["_id" := VInt 9; "name" := VStr "Z"]})
            ∈ calls_since update_and_insert
                (final (flush true update_and_insert))) as Hin.
  { assert (calls_since update_and_insert
              (final (flush true update_and_insert)) !! 1%nat =
            Some (CSave (0%nat, {["_id" := VInt 9; "name" := VStr "Z"]})))
      as Hsecond by (vm_compute; reflexivity).
    eapply list_elem_of_lookup_2. exact Hsecond. }
  split_and!; [exact Hid|exact Hin|].
  exact (saves_carry_identity true _ _ _ Hid Hin).
Defined.

Lemma completed_flush_writes_all_witness :
  _flush update_and_insert = Ok tt (final (_flush update_and_insert)) ∧
  NoDup (contents (heap_of update_and_insert) (inserts update_and_insert)) ∧
  saved 0%nat
    (calls_since update_and_insert (final (_flush update_and_insert))) ∧
  (saved 1%nat
     (calls_since update_and_insert (final (_flush update_and_insert))) ∨
   bulk_inserted 1%nat
     (calls_since update_and_insert (final (_flush update_and_insert)))).
Proof.
  assert (_flush update_and_insert =
          Ok tt (final (_flush update_and_insert))) as Hflush.
  { vm_compute. reflexivity. }
  assert (NoDup (contents (heap_of update_and_insert)
                          (inserts update_and_insert))) as Hnd.
  { apply (bool_decide_unpack _). vm_compute. reflexivity. }
  split_and!; [exact Hflush|exact Hnd| |].
  - destruct (completed_flush_writes_all _ _ 0%nat Hflush Hnd) as [Hupd _].
    apply Hupd. apply (bool_decide_unpack _). vm_compute. reflexivity.
  - destruct (completed_flush_writes_all _ _ 1%nat Hflush Hnd) as [_ Hins].
    apply Hins. apply (bool_decide_unpack _). vm_compute. reflexivity.
Defined.

Lemma from_path_copies_whitelist_witness :
  PhotoExamples.read_metadata "/photos/a.jpg" =
    inr {| Photo.md_dict := PhotoExamples.on_disk;
           Photo.md_path := Some (VStr "/photos/a.jpg") |} ∧
  (Photo.from_path id PhotoExamples.read_metadata PhotoExamples.stat_size
     PhotoExamples.AttributeError VInt PhotoExamples.loaded
     "/photos/a.jpg").2 =
  {["_id" := VInt 7; "title" := VStr "old"; "x" := VInt 640;
    "y" := VInt 480; "path" := VStr "/photos/a.jpg"; "size" := VInt 1024]} ∧
  (Photo.from_path id PhotoExamples.read_metadata PhotoExamples.stat_size
     PhotoExamples.AttributeError VInt PhotoExamples.loaded
     "/photos/a.jpg").2 !! "camera" = None.
Proof.
  assert (PhotoExamples.read_metadata (id "/photos/a.jpg") =
          inr {| Photo.md_dict := PhotoExamples.on_disk;
                 Photo.md_path := Some (VStr "/photos/a.jpg") |}) as Hmeta.
  { vm_compute. reflexivity. }
  destruct (from_path_copies_whitelist id PhotoExamples.read_metadata
              PhotoExamples.stat_size PhotoExamples.AttributeError VInt
              PhotoExamples.loaded "/photos/a.jpg" _ Hmeta) as (Hout & _ & _).
  split_and!; [exact Hmeta|vm_compute; reflexivity|].
  rewrite Hout; [vm_compute; reflexivity| |discriminate].
  apply (bool_decide_unpack _). vm_compute. reflexivity.
Defined.

Lemma from_path_failures_witness :
  PhotoExamples.read_metadata "/photos/a.jpg" =
    inr {| Photo.md_dict := PhotoExamples.on_disk;
           Photo.md_path := Some (VStr "/photos/a.jpg") |} ∧
  PhotoExamples.stat_gone (VStr "/photos/a.jpg") =
    inl (PhotoExamples.OSError 2) ∧
  Photo.from_path id PhotoExamples.read_metadata PhotoExamples.stat_gone
    PhotoExamples.AttributeError VInt PhotoExamples.loaded "/photos/a.jpg" =
  (inl (PhotoExamples.OSError 2),
   {["_id" := VInt 7; "title" := VStr "old"; "x" := VInt 640;
     "y" := VInt 480; "path" := VStr "/photos/a.jpg"]}) ∧
  Photo.from_path id PhotoExamples.read_metadata PhotoExamples.stat_gone
    PhotoExamples.AttributeError VInt PhotoExamples.loaded "/missing" =
  (inl (PhotoExamples.OSError 2), PhotoExamples.loaded).
Proof.
  assert (PhotoExamples.read_metadata (id "/photos/a.jpg") =
          inr {| Photo.md_dict := PhotoExamples.on_disk;
                 Photo.md_path := Some (VStr "/photos/a.jpg") |}) as Hmeta.
  { vm_compute. reflexivity. }
  assert (PhotoExamples.stat_gone (VStr "/photos/a.jpg") =
          inl (PhotoExamples.OSError 2)) as Hstat by reflexivity.
  destruct (from_path_failures id PhotoExamples.read_metadata
              PhotoExamples.stat_gone PhotoExamples.AttributeError VInt
              PhotoExamples.loaded "/photos/a.jpg") as [_ Hread].
  destruct (Hread _ Hmeta) as (_ & _ & Hgone).
  destruct (from_path_failures id PhotoExamples.read_metadata
              PhotoExamples.stat_gone PhotoExamples.AttributeError VInt
              PhotoExamples.loaded "/missing") as [Hmissing _].
  split_and!; [exact Hmeta|exact Hstat| |].
  - rewrite (Hgone _ _ eq_refl Hstat). vm_compute. reflexivity.
  - apply Hmissing. vm_compute. reflexivity.
Defined.
